(** * react-native-img-cache: the [ImageCache] coordinator of [src/index.tsx]

    A shallow embedding of the [ImageCache] class: the entry index
    ([this.cache]), the entry objects it points to, path naming ([getPath]),
    the fetch orchestration ([download], [get]) with its promise callbacks,
    and the notification fan-out ([notify]).

    Conventions.
    - JavaScript strings are [string]; the only characters the code searches
      for are ["/"], ["?"] and ["."], which are single bytes in every
      encoding considered, so indices are byte indices.
    - [this.cache] is an object literal used as a map: reading a key finds
      the entry stored under it, or else the member of that name which every
      object inherits from [Object.prototype], or else [undefined].
    - A handler (a closure compared with [===]) is identified by a number;
      what its body does when called (the calls it makes back into the
      coordinator, and whether it throws) is given from outside.
    - Entry objects live in a store ([heap]) and the index maps a URI to the
      location of its entry, because promise callbacks keep a reference to the
      entry object ([cache] in [download] and [get]) while [notify] goes
      through [this.cache[uri]] again.
    - A pending promise is an element of [pending]; the outside world settles
      it with a boolean (file exists / download succeeded).
    - Calls into [react-native-fs] and into handlers are recorded in [io], in
      the order they are made.
    - A method that can throw returns a [completion]: the state it leaves and
      whether it returned or threw. *)

From stdpp Require Import gmap strings list fin_maps.
From Stdlib Require Import ZArith Lia Ascii.

(** ** JavaScript string primitives used by [getPath] *)

Module JS.

Local Open Scope Z_scope.

(** [s.indexOf(c)] for a one-character needle: first index, or [-1]. *)
Fixpoint indexOf_from (c : Ascii.ascii) (s : string) (k : Z) : Z :=
  match s with
  | EmptyString => -1
  | String a s' => if Ascii.eqb a c then k else indexOf_from c s' (k + 1)
  end.

Definition indexOf (s : string) (c : Ascii.ascii) : Z := indexOf_from c s 0.

(** [s.lastIndexOf(c)] for a one-character needle: last index, or [-1]. *)
Fixpoint lastIndexOf_from (c : Ascii.ascii) (s : string) (k found : Z) : Z :=
  match s with
  | EmptyString => found
  | String a s' =>
      lastIndexOf_from c s' (k + 1) (if Ascii.eqb a c then k else found)
  end.

Definition lastIndexOf (s : string) (c : Ascii.ascii) : Z :=
  lastIndexOf_from c s 0 (-1).

Definition len (s : string) : Z := Z.of_nat (String.length s).

(** Each argument of [substring] is clamped to [0 .. length]. *)
Definition clamp (s : string) (n : Z) : Z := Z.max 0 (Z.min n (len s)).

(** [s.substring(start, end)]: the arguments are clamped, and swapped when
    [start > end]. *)
Definition substring (s : string) (first last : Z) : string :=
  let a := clamp s first in
  let b := clamp s last in
  let lo := Z.min a b in
  let hi := Z.max a b in
  String.substring (Z.to_nat lo) (Z.to_nat (hi - lo)) s.

(** [s.substring(start)]: up to the end of the string. *)
Definition substring_from (s : string) (first : Z) : string :=
  substring s first (len s).

(** Truthiness of a [string | undefined] value: [undefined] and the empty
    string are falsy. *)
Definition truthy (v : option string) : bool :=
  match v with
  | Some EmptyString => false
  | Some _ => true
  | None => false
  end.

(** The names of the members of [Object.prototype] (ECMAScript, with the
    legacy accessors of its annex B): what [({})[name]] finds for a name
    that is no property of the object itself.  Each is a function, or for
    ["__proto__"] the prototype object itself: truthy, and without a
    property [handlers], [immutable], [path], [task] or [source]. *)
Definition Object_prototype : list string :=
  ["constructor"; "hasOwnProperty"; "isPrototypeOf"; "propertyIsEnumerable";
   "toLocaleString"; "toString"; "valueOf"; "__proto__"; "__defineGetter__";
   "__defineSetter__"; "__lookupGetter__"; "__lookupSetter__"]%string.

Definition inherited (name : string) : bool :=
  bool_decide (name ∈ Object_prototype).

End JS.

(** ** Path naming *)

(** The extension computed by the first three lines of [getPath]. *)
Definition getPath_ext (uri : string) : string :=
  let path := JS.substring_from uri (JS.lastIndexOf uri "/"%char) in
  let path :=
    if (JS.indexOf path "?"%char =? -1)%Z then path
    else JS.substring path (JS.lastIndexOf path "."%char) (JS.indexOf path "?"%char) in
  if (JS.indexOf path "."%char =? -1)%Z then ".jpg"%string
  else JS.substring_from path (JS.indexOf path "."%char).

(** ** Observer lists *)

(** A handler is a closure; [===] on closures is identity, here a number. *)
Definition CacheHandler := nat.

(** The body of [dispose]: [handlers.forEach((h, index) => { if (h ===
    handler) handlers.splice(index, 1) })].  [forEach] fixes the number of
    visits when it starts, visits index [k] only if it is still in the array,
    and reads the element at the time of the visit; [splice(index, 1)] removes
    one element and shifts the rest down. *)
Fixpoint dispose_loop (visits : nat) (k : nat) (handler : CacheHandler)
    (handlers : list CacheHandler) : list CacheHandler :=
  match visits with
  | O => handlers
  | S visits' =>
      match handlers !! k with
      | Some h =>
          if Nat.eqb h handler
          then dispose_loop visits' (S k) handler (delete k handlers)
          else dispose_loop visits' (S k) handler handlers
      | None => dispose_loop visits' (S k) handler handlers
      end
  end.

Definition dispose_handlers (handler : CacheHandler)
    (handlers : list CacheHandler) : list CacheHandler :=
  dispose_loop (length handlers) 0 handler handlers.

(** ** Entries and coordinator state *)

(** [CachedImageURISource]: [uri] is required; [method] and [headers] are the
    optional fields of [ImageURISource] that [download] reads. *)
Record CachedImageURISource := {
  uri : string;
  method : option string;
  headers : option (gmap string string);
}.

(** [CacheEntry].  [task] is the object returned by [fs.downloadFile],
    identified by its [jobId]; [None] stands for both [undefined] and [null]. *)
Record CacheEntry := {
  source : CachedImageURISource;
  handlers : list CacheHandler;
  path : option string;
  immutable : bool;
  task : option nat;
}.

Definition set_handlers (hs : list CacheHandler) (e : CacheEntry) : CacheEntry :=
  {| source := source e; handlers := hs; path := path e;
     immutable := immutable e; task := task e |}.

Definition set_path (p : option string) (e : CacheEntry) : CacheEntry :=
  {| source := source e; handlers := handlers e; path := p;
     immutable := immutable e; task := task e |}.

Definition set_task (t : option nat) (e : CacheEntry) : CacheEntry :=
  {| source := source e; handlers := handlers e; path := path e;
     immutable := immutable e; task := t |}.

(** A promise that has not settled yet, with what its callbacks captured.
    - [ExistsOfGet l u]: [fs.exists(cache.path).then(...)] of [get], whose
      callback captured the entry object [l] and [uri].
    - [DownloadJob l u p job]: the promise of [fs.downloadFile] in
      [download]; the callbacks captured the entry object [l], [uri] and the
      destination [p].
    - [ExistsOfDownload l u p]: the [fs.exists(path)] returned by the first
      [then] of that chain. *)
Inductive promise :=
  | ExistsOfGet (l : nat) (u : string)
  | DownloadJob (l : nat) (u : string) (p : string) (job : nat)
  | ExistsOfDownload (l : nat) (u : string) (p : string).


(** What leaves the coordinator: calls into [react-native-fs] and into
    handlers. *)
Inductive io_call :=
  | FsMkdir (p : string)
  | FsUnlink (p : string)
  | FsExists (p : string)
  | FsDownloadFile (job : nat) (fromUrl toFile : string)
      (hdrs : gmap string string)
  | FsStopDownload (job : nat)
  | Handler (h : CacheHandler) (arg : option string).

(** The [ImageCache] instance together with what surrounds it: [cache] is
    [this.cache] (URI to entry object), [heap] the entry objects, [pending]
    the unsettled promises, [draws] the number of [s4()] calls made so far,
    [jobs] the next [jobId], [io] the calls made so far, oldest first. *)
Record ImageCache := {
  cache : gmap string nat;
  heap : list CacheEntry;
  pending : list promise;
  draws : nat;
  jobs : nat;
  io : list io_call;
}.

Definition with_cache (c : gmap string nat) (st : ImageCache) : ImageCache :=
  {| cache := c; heap := heap st; pending := pending st; draws := draws st;
     jobs := jobs st; io := io st |}.

Definition with_heap (h : list CacheEntry) (st : ImageCache) : ImageCache :=
  {| cache := cache st; heap := h; pending := pending st; draws := draws st;
     jobs := jobs st; io := io st |}.

Definition with_pending (ps : list promise) (st : ImageCache) : ImageCache :=
  {| cache := cache st; heap := heap st; pending := ps; draws := draws st;
     jobs := jobs st; io := io st |}.

Definition with_draws (n : nat) (st : ImageCache) : ImageCache :=
  {| cache := cache st; heap := heap st; pending := pending st; draws := n;
     jobs := jobs st; io := io st |}.

Definition with_jobs (n : nat) (st : ImageCache) : ImageCache :=
  {| cache := cache st; heap := heap st; pending := pending st;
     draws := draws st; jobs := n; io := io st |}.

(** Record one more outgoing call. *)
Definition call (c : io_call) (st : ImageCache) : ImageCache :=
  {| cache := cache st; heap := heap st; pending := pending st;
     draws := draws st; jobs := jobs st; io := io st ++ [c] |}.

Definition calls (cs : list io_call) (st : ImageCache) : ImageCache :=
  {| cache := cache st; heap := heap st; pending := pending st;
     draws := draws st; jobs := jobs st; io := io st ++ cs |}.

(** Register one more unsettled promise. *)
Definition await (p : promise) (st : ImageCache) : ImageCache :=
  with_pending (pending st ++ [p]) st.

(** Mutate the entry object at [l] in place. *)
Definition update (l : nat) (f : CacheEntry → CacheEntry) (st : ImageCache)
    : ImageCache :=
  with_heap (alter f l (heap st)) st.

(** What the outside world and the host layer can do to the coordinator. *)
Inductive event :=
  | On (src : CachedImageURISource) (handler : CacheHandler)
      (imm : option bool)
  | Dispose (u : string) (handler : CacheHandler)
  | Bust (u : string)
  | Cancel (u : string)
  | Clear
  | Settle (i : nat) (ok : bool).


(** What [this.cache[uri]] evaluates to: the entry object stored under the
    key, a member inherited from [Object.prototype], or [undefined]. *)
Inductive slot :=
  | Entry (l : nat)
  | Inherited
  | Undefined.

Definition cache_lookup (st : ImageCache) (u : string) : slot :=
  match cache st !! u with
  | Some l => Entry l
  | None => if JS.inherited u then Inherited else Undefined
  end.

(** How a call ends: it returns, or it throws (a [TypeError], or what a
    handler throws); either way it leaves a state. *)
Inductive completion :=
  | Returns (st : ImageCache)
  | Throws (st : ImageCache).

Definition state_of (c : completion) : ImageCache :=
  match c with
  | Returns st | Throws st => st
  end.

(** A completion is read as the state it leaves where a state is expected. *)
Coercion state_of : completion >-> ImageCache.

(** A call of a public method, as the body of a handler can make it. *)
Inductive api_call :=
  | CallOn (src : CachedImageURISource) (handler : CacheHandler)
      (imm : option bool)
  | CallDispose (u : string) (handler : CacheHandler)
  | CallBust (u : string)
  | CallCancel (u : string)
  | CallClear.

(** What the body of a handler does with respect to the coordinator: the
    public methods it calls, in order, and whether it then throws.  An
    exception of one of these calls that the body does not catch is a body
    that stops there and throws. *)
Record reaction := {
  requests : list api_call;
  raises : bool;
}.

(** A handler that only takes note of its argument, such as
    [this.setState({path})]. *)
Definition quiet : reaction := {| requests := []; raises := false |}.

(** What the class takes from its surroundings: [fs.CachesDirectoryPath],
    [SHA1] of crypto-js (rendered as the string that [+] makes of its
    result), the successive results of [s4()], a function of [Math.random],
    and the code of the handlers its callers pass to [on]: what the handler
    does when it is called with that argument in that state. *)
Class Externals := {
  CachesDirectoryPath : string;
  SHA1 : string → string;
  s4 : nat → string;
  handler_body : CacheHandler → option string → ImageCache → reaction;
}.

Section Coordinator.

Context `{Externals}.

Definition BASE_DIR : string :=
  CachesDirectoryPath +:+ "/react-native-img-cache".

(** [getPath(uri, immutable)], threading the number of [s4()] draws. *)
Definition getPath (n : nat) (u : string) (imm : bool) : string * nat :=
  let ext := getPath_ext u in
  if imm then (BASE_DIR +:+ "/" +:+ SHA1 u +:+ ext, n)
  else
    (BASE_DIR +:+ "/" +:+ s4 n +:+ s4 (n + 1) +:+ "-" +:+ s4 (n + 2)
       +:+ "-" +:+ s4 (n + 3) +:+ "-" +:+ s4 (n + 4) +:+ "-"
       +:+ s4 (n + 5) +:+ s4 (n + 6) +:+ s4 (n + 7) +:+ ext,
     n + 8).

(** The state after [new ImageCache()]: the constructor creates the
    directory. *)
Definition init : ImageCache :=
  {| cache := ∅; heap := []; pending := []; draws := 0; jobs := 0;
     io := [FsMkdir BASE_DIR] |}.

(** [source.method ? source.method : "GET"]. *)
Definition request_method (src : CachedImageURISource) : string :=
  if JS.truthy (method src) then default "GET"%string (method src)
  else "GET"%string.

(** [{method, ...(source.headers || {})}]: the spread overrides [method]
    when the headers have that key. *)
Definition request_headers (src : CachedImageURISource)
    : gmap string string :=
  default ∅ (headers src) ∪ {[ "method"%string := request_method src ]}.

(** [download(cache)], for the entry object at [l], up to the point where
    the promise chain is installed. *)
Definition download (st : ImageCache) (l : nat) : ImageCache :=
  match heap st !! l with
  | Some e =>
      match task e with
      | Some _ => st
      | None =>
          let u := uri (source e) in
          let (p, n) := getPath (draws st) u (immutable e) in
          let job := jobs st in
          await (DownloadJob l u p job)
            (call (FsDownloadFile job u p (request_headers (source e)))
               (update l (set_task (Some job))
                  (with_jobs (S job) (with_draws n st))))
      end
  | None => st
  end.

(** [get(uri)].  It is private and called only by [on] and [bust], with the
    entry present. *)
Definition get (st : ImageCache) (u : string) : ImageCache :=
  match cache st !! u with
  | Some l =>
      match heap st !! l with
      | Some e =>
          if JS.truthy (path e)
          then await (ExistsOfGet l u)
                 (call (FsExists (default ""%string (path e))) st)
          else download st l
      | None => st
      end
  | None => st
  end.

(** [on(source, handler, immutable)].  For a name inherited from
    [Object.prototype] the test [!this.cache[uri]] fails and
    [this.cache[uri].handlers.push] throws, [handlers] being [undefined]. *)
Definition on (st : ImageCache) (src : CachedImageURISource)
    (handler : CacheHandler) (imm : option bool) : completion :=
  let u := uri src in
  match cache_lookup st u with
  | Undefined =>
      let strict := bool_decide (imm = Some true) in
      let e :=
        {| source := src; handlers := [handler]; immutable := strict;
           path := if strict then Some (getPath (draws st) u true).1
                   else None;
           task := None |} in
      Returns
        (get
           (with_cache (<[u := List.length (heap st)]> (cache st))
              (with_heap (heap st ++ [e]) st))
           u)
  | Entry l =>
      Returns
        (get (update l (λ e, set_handlers (handlers e ++ [handler]) e) st) u)
  | Inherited => Throws st
  end.

(** [dispose(uri, handler)].  An inherited member passes the test [if
    (cache)] and [cache.handlers.forEach] throws. *)
Definition dispose (st : ImageCache) (u : string) (handler : CacheHandler)
    : completion :=
  match cache_lookup st u with
  | Entry l =>
      Returns
        (update l
           (λ e, set_handlers (dispose_handlers handler (handlers e)) e) st)
  | Inherited => Throws st
  | Undefined => Returns st
  end.

(** [bust(uri)].  An inherited member passes the test [cache !== undefined
    && !cache.immutable]: it is given a property [path] (outside the
    coordinator's state), [get] finds that path empty and [download] throws
    on [source.uri], [source] being [undefined]. *)
Definition bust (st : ImageCache) (u : string) : completion :=
  match cache_lookup st u with
  | Entry l =>
      match heap st !! l with
      | Some e =>
          if immutable e then Returns st
          else Returns (get (update l (set_path None) st) u)
      | None => Returns st
      end
  | Inherited => Throws st
  | Undefined => Returns st
  end.

(** [cancel(uri)].  An inherited member has no [task]. *)
Definition cancel (st : ImageCache) (u : string) : ImageCache :=
  match cache_lookup st u with
  | Entry l =>
      match heap st !! l with
      | Some e =>
          match task e with
          | Some job => call (FsStopDownload job) st
          | None => st
          end
      | None => st
      end
  | Inherited | Undefined => st
  end.

(** [clear()]. *)
Definition clear (st : ImageCache) : ImageCache :=
  call (FsUnlink BASE_DIR) (with_cache ∅ st).

(** The state a call of a public method leaves. *)
Definition perform (st : ImageCache) (c : api_call) : ImageCache :=
  match c with
  | CallOn src handler imm => on st src handler imm
  | CallDispose u handler => dispose st u handler
  | CallBust u => bust st u
  | CallCancel u => cancel st u
  | CallClear => clear st
  end.

(** One handler is called: the call is recorded, then its body runs. *)
Definition react (st : ImageCache) (h : CacheHandler) (arg : option string)
    : completion :=
  let st1 := call (Handler h arg) st in
  let r := handler_body h arg st1 in
  let st2 := foldl perform st1 (requests r) in
  if raises r then Throws st2 else Returns st2.

(** [this.cache[uri].path] as [notify] reads it for each handler: [None]
    is the [TypeError] of reading [path] of [undefined]; an inherited member
    has no [path]. *)
Definition current_path (st : ImageCache) (u : string)
    : option (option string) :=
  match cache_lookup st u with
  | Entry l => Some (heap st !! l ≫= path)
  | Inherited => Some None
  | Undefined => None
  end.

(** [handlers.forEach(handler => handler(this.cache[uri].path))], where
    [handlers] is the observer list of the entry object [l0].  [forEach]
    fixes the number of visits when it starts and visits index [k] only if
    it is still in the array, which the body of a handler may have changed
    through [on] and [dispose]; [this.cache[uri]] is read again at every
    visit.  What a handler throws ends the loop. *)
Fixpoint notify_loop (visits k : nat) (l0 : nat) (u : string)
    (st : ImageCache) : completion :=
  match visits with
  | O => Returns st
  | S visits' =>
      match heap st !! l0 ≫= (λ e, handlers e !! k) with
      | None => notify_loop visits' (S k) l0 u st
      | Some h =>
          match current_path st u with
          | None => Throws st
          | Some arg =>
              match react st h arg with
              | Returns st' => notify_loop visits' (S k) l0 u st'
              | Throws st' => Throws st'
              end
          end
      end
  end.

(** [notify(uri)].  Reading [handlers] of [undefined] throws, and so does
    [forEach] of the [handlers] of an inherited member. *)
Definition notify (st : ImageCache) (u : string) : completion :=
  match cache_lookup st u with
  | Entry l0 =>
      match heap st !! l0 with
      | Some e => notify_loop (List.length (handlers e)) 0 l0 u st
      | None => Throws st
      end
  | Inherited | Undefined => Throws st
  end.

(** The [catch] callback of the chain in [download]. *)
Definition download_catch (st : ImageCache) (l : nat) (p : string)
    : ImageCache :=
  call (FsUnlink p) (update l (set_task None) st).

(** A promise settles and its callbacks run.  [ok] is the boolean
    [fs.exists] resolves with, or whether the download promise resolved
    ([true]) or rejected ([false]).
    - [get]'s check: notify, or download; an exception of [notify] is an
      unhandled rejection, and what ran before it stays done.
    - the download: the first [then] clears [task], sets [path] and asks
      whether the file exists; a rejection goes to [catch].
    - the check after the download: the second [then] returns if the file
      is missing and notifies otherwise; an exception of [notify], its own
      or one of a handler, goes to [catch]. *)
Definition settle (st : ImageCache) (pr : promise) (ok : bool)
    : ImageCache :=
  match pr with
  | ExistsOfGet l u =>
      if ok then notify st u else download st l
  | DownloadJob l u p job =>
      if ok
      then await (ExistsOfDownload l u p)
             (call (FsExists p)
                (update l (set_path (Some p))
                   (update l (set_task None) st)))
      else download_catch st l p
  | ExistsOfDownload l u p =>
      if ok
      then match notify st u with
           | Returns st' => st'
           | Throws st' => download_catch st' l p
           end
      else st
  end.

(** One step of the coordinator.  Settling the [i]-th unsettled promise
    removes it from [pending] first. *)
Definition step (st : ImageCache) (ev : event) : ImageCache :=
  match ev with
  | On src handler imm => on st src handler imm
  | Dispose u handler => dispose st u handler
  | Bust u => bust st u
  | Cancel u => cancel st u
  | Clear => clear st
  | Settle i ok =>
      match pending st !! i with
      | Some pr => settle (with_pending (delete i (pending st)) st) pr ok
      | None => st
      end
  end.

Definition run (st : ImageCache) (evs : list event) : ImageCache :=
  foldl step st evs.

End Coordinator.

(** ** Observations on a state *)

(** Destinations of the downloads issued so far. *)
Definition downloads (st : ImageCache) : list (nat * string * string) :=
  omap (λ c, match c with
             | FsDownloadFile job u p _ => Some (job, u, p)
             | _ => None
             end) (io st).

(** Handler invocations made so far, with the argument each received. *)
Definition notified (st : ImageCache) : list (CacheHandler * option string) :=
  omap (λ c, match c with Handler h a => Some (h, a) | _ => None end) (io st).

Definition job_of (l : nat) (pr : promise) : option nat :=
  match pr with
  | DownloadJob l' _ _ job => if decide (l' = l) then Some job else None
  | _ => None
  end.

(** The downloads of entry object [l] whose promise has not settled. *)
Definition inflight (st : ImageCache) (l : nat) : list nat :=
  omap (job_of l) (pending st).

(** The entry object a promise's callbacks hold on to. *)
Definition holder (pr : promise) : nat :=
  match pr with
  | ExistsOfGet l _ | DownloadJob l _ _ _ | ExistsOfDownload l _ _ => l
  end.

(** The URI a promise's callbacks hold on to. *)
Definition subject (pr : promise) : string :=
  match pr with
  | ExistsOfGet _ u | DownloadJob _ u _ _ | ExistsOfDownload _ u _ => u
  end.

(** ** Invariants *)

(** The path [getPath] gives an immutable entry. *)
Definition immutable_path `{Externals} (u : string) : string :=
  (getPath 0 u true).1.

(** [h'] still has every entry object of [h], with the same [source] and
    [immutable] fields. *)
Definition extends (h h' : list CacheEntry) : Prop :=
  ∀ l e, h !! l = Some e →
    ∃ e', h' !! l = Some e' ∧ source e' = source e
          ∧ immutable e' = immutable e.

(** Immutable entries carry the path derived from their URI, and so does
    every download running for them; promises only hold on to entry objects
    that exist. *)
Definition paths_ok `{Externals} (h : list CacheEntry) (ps : list promise)
    : Prop :=
  (∀ l e, h !! l = Some e → immutable e = true →
     path e = Some (immutable_path (uri (source e))))
  ∧ (∀ pr, pr ∈ ps → holder pr < List.length h)
  ∧ (∀ l u p job e,
       DownloadJob l u p job ∈ ps → h !! l = Some e → immutable e = true →
       p = immutable_path (uri (source e))).

(** The running downloads of the entry object [l] are what its [task]
    field names: none when it is empty, that one otherwise. *)
Definition flight_ok (h : list CacheEntry) (ps : list promise) (l : nat)
    : Prop :=
  omap (job_of l) ps = from_option (λ e, option_list (task e)) [] (h !! l).

(** The index leads to entry objects of the right URI, and every unsettled
    promise holds on to an entry object whose URI is the one it captured. *)
Definition wired (c : gmap string nat) (h : list CacheEntry)
    (ps : list promise) : Prop :=
  (∀ u l, c !! u = Some l → ∃ e, h !! l = Some e ∧ uri (source e) = u)
  ∧ (∀ pr, pr ∈ ps →
       ∃ e, h !! holder pr = Some e ∧ uri (source e) = subject pr).

(** The entry objects the index leads to, and the locations not allocated
    yet.  [clear] takes entry objects out of the index while callbacks of
    older promises still hold on to them; such objects are entries no more,
    and never become entries again. *)
Definition tracked (c : gmap string nat) (h : list CacheEntry) (l : nat)
    : Prop :=
  (∃ u, c !! u = Some l) ∨ List.length h ≤ l.

Definition coherent (st : ImageCache) : Prop :=
  wired (cache st) (heap st) (pending st)
  ∧ ∀ l, tracked (cache st) (heap st) l →
         flight_ok (heap st) (pending st) l.

(** [st'] has the index of [st] and as many entry objects. *)
Definition same_shape (st st' : ImageCache) : Prop :=
  cache st' = cache st ∧ List.length (heap st') = List.length (heap st).


(** No handler throws. *)
Definition no_handler_throws `{Externals} : Prop :=
  ∀ h a st, raises (handler_body h a st) = false.

(** ** A concrete environment, for running the model on examples *)

Definition demo_src (u : string) : CachedImageURISource :=
  {| uri := u; method := None; headers := None |}.

Definition demo_s4 (n : nat) : string :=
  String (Ascii.ascii_of_nat (97 + n)) "000".

Definition demo_sha1 (u : string) : string := "sha1(" +:+ u +:+ ")".

(** An environment whose handlers are all quiet. *)
Definition demo : Externals :=
  {| CachesDirectoryPath := "/c"; SHA1 := demo_sha1; s4 := demo_s4;
     handler_body := λ _ _ _, quiet |}.

Definition demo_run : list event → ImageCache := @run demo (@init demo).

Definition demo_uri : string := "https://x/a.png".

(** The entry of [demo_uri] while its first download runs. *)
Definition demo_entry : CacheEntry :=
  {| source := demo_src demo_uri; handlers := [1]; path := None;
     immutable := false; task := Some 0 |}.

(** The state in which that download runs. *)
Definition demo_busy : ImageCache := demo_run [On (demo_src demo_uri) 1 None].

(** The destination of that download. *)
Definition demo_dest : string := (@getPath demo 0 demo_uri false).1.

(** The same environment, except that handler 1 is
    [path => { ImageCache.get().bust(demo_uri); throw ... }]. *)
Definition demo_rethrowing : Externals :=
  {| CachesDirectoryPath := "/c"; SHA1 := demo_sha1; s4 := demo_s4;
     handler_body := λ h _ _,
       if Nat.eqb h 1
       then {| requests := [CallBust demo_uri]; raises := true |}
       else quiet |}.

(** The same environment, except that handler 1 is
    [path => ImageCache.get().dispose(demo_uri, handler1)], a handler that
    unregisters itself when it is notified. *)
Definition demo_disposing : Externals :=
  {| CachesDirectoryPath := "/c"; SHA1 := demo_sha1; s4 := demo_s4;
     handler_body := λ h _ _,
       if Nat.eqb h 1
       then {| requests := [CallDispose demo_uri 1]; raises := false |}
       else quiet |}.

(** Three observers of [demo_uri], the first of them handler 1. *)
Definition demo_three : ImageCache :=
  @run demo_disposing (@init demo_disposing)
    [On (demo_src demo_uri) 1 None; On (demo_src demo_uri) 2 None;
     On (demo_src demo_uri) 3 None].

Definition demo_three_entry : CacheEntry :=
  {| source := demo_src demo_uri; handlers := [1; 2; 3]; path := None;
     immutable := false; task := Some 0 |}.

(** Where stored paths come from: the [path] of an entry that is not
    immutable is the destination of a download issued for its URI, and
    every running download was issued with its job, URI and destination. *)
Definition sourced (h : list CacheEntry) (ps : list promise)
    (dl : list (nat * string * string)) : Prop :=
  (∀ l e p, h !! l = Some e → path e = Some p → immutable e = false →
     ∃ job, (job, uri (source e), p) ∈ dl)
  ∧ (∀ l u p job, DownloadJob l u p job ∈ ps →
       (job, u, p) ∈ dl ∧ ∃ e, h !! l = Some e ∧ uri (source e) = u).

(** ** The component [BaseCachedImage] *)

(** [ImageURISource] of react-native: here [uri] is optional. *)
Record ImageURISource := {
  image_uri : option string;
  image_method : option string;
  image_headers : option (gmap string string);
}.

(** The [source] prop: [number | ImageURISource | ImageURISource[]]. *)
Inductive ImageSource :=
  | SourceNumber (n : nat)
  | SourceObject (src : ImageURISource)
  | SourceArray (srcs : list ImageURISource).

(** [source as CachedImageURISource], for a source whose [uri] is set. *)
Definition as_cached (src : ImageURISource) : CachedImageURISource :=
  {| uri := default ""%string (image_uri src); method := image_method src;
     headers := image_headers src |}.

(** The props the lifecycle methods read. *)
Record CachedImageProps := {
  source_prop : ImageSource;
  mutable_prop : option bool;
}.

(** An instance of the component: [this.uri] and [this.state.path].  Its
    [handler] is a closure of its own, so the instance is identified by the
    number of that handler. *)
Record BaseCachedImage := {
  this_uri : option string;
  state_path : option string;
}.

(** An instance right after construction. *)
Definition constructed : BaseCachedImage :=
  {| this_uri := None; state_path := None |}.

(** [this.setState({path})], the body of [handler]. *)
Definition setState (a : option string) (this : BaseCachedImage)
    : BaseCachedImage :=
  {| this_uri := this_uri this; state_path := a |}.

(** [checkSource]: [None] is the [Error] thrown for an array. *)
Definition checkSource (source : ImageSource) : option ImageSource :=
  match source with
  | SourceArray _ => None
  | _ => Some source
  end.

(** [typeof(source) !== "number" && source.uri]: the source to observe. *)
Definition observed (source : ImageSource) : option CachedImageURISource :=
  match source with
  | SourceObject src =>
      if JS.truthy (image_uri src) then Some (as_cached src) else None
  | _ => None
  end.

(** The coordinator and the mounted instances, by handler. *)
Record Host := {
  coordinator : ImageCache;
  instances : gmap CacheHandler BaseCachedImage;
}.

Definition instance (hst : Host) (handler : CacheHandler) : BaseCachedImage :=
  default constructed (instances hst !! handler).

(** What happens to a host: the lifecycle methods of an instance, or an
    event of the coordinator that does not come from an instance. *)
Inductive host_event :=
  | Mount (handler : CacheHandler) (props : CachedImageProps)
  | ReceiveProps (handler : CacheHandler) (props : CachedImageProps)
  | Unmount (handler : CacheHandler)
  | Outside (ev : event).

(** Run the handlers that were called: each sets the state of its instance. *)
Definition deliver (cs : list (CacheHandler * option string))
    (mounted : gmap CacheHandler BaseCachedImage)
    : gmap CacheHandler BaseCachedImage :=
  foldl (λ m c, <[c.1 := setState c.2 (default constructed (m !! c.1))]> m)
    mounted cs.

Section Component.

Context `{Externals}.


(** [BaseCachedImage.dispose]. *)
Definition component_dispose (this : BaseCachedImage)
    (handler : CacheHandler) (st : ImageCache) : completion :=
  if JS.truthy (this_uri this)
  then dispose st (default ""%string (this_uri this)) handler
  else Returns st.

(** [observe(source, mutable)]: the instance and the coordinator as the
    call leaves them.  When [this.dispose()] throws, [this.uri] is not
    assigned; when [on] throws, it has been. *)
Definition observe (this : BaseCachedImage) (handler : CacheHandler)
    (st : ImageCache) (source : CachedImageURISource) (mutable : bool)
    : BaseCachedImage * ImageCache :=
  if bool_decide (Some (uri source) = this_uri this) then (this, st)
  else
    match component_dispose this handler st with
    | Throws st' => (this, st')
    | Returns st' =>
        ({| this_uri := Some (uri source); state_path := state_path this |},
         state_of (on st' source handler (Some (negb mutable))))
    end.

(** [componentWillMount]; [None] when [checkSource] throws, before
    anything is done. *)
Definition componentWillMount (this : BaseCachedImage)
    (handler : CacheHandler) (st : ImageCache) (props : CachedImageProps)
    : option (BaseCachedImage * ImageCache) :=
  match checkSource (source_prop props) with
  | None => None
  | Some source =>
      let this' := setState None this in
      Some
        match observed source with
        | Some src =>
            observe this' handler st src
              (bool_decide (mutable_prop props = Some true))
        | None => (this', st)
        end
  end.

(** [componentWillReceiveProps]; [None] when [checkSource] throws. *)
Definition componentWillReceiveProps (this : BaseCachedImage)
    (handler : CacheHandler) (st : ImageCache) (props : CachedImageProps)
    : option (BaseCachedImage * ImageCache) :=
  match checkSource (source_prop props) with
  | None => None
  | Some source =>
      Some
        match observed source with
        | Some src =>
            observe this handler st src
              (bool_decide (mutable_prop props = Some true))
        | None => (this, st)
        end
  end.

(** [componentWillUnmount]. *)
Definition componentWillUnmount (this : BaseCachedImage)
    (handler : CacheHandler) (st : ImageCache) : ImageCache :=
  component_dispose this handler st.

Definition put (hst : Host) (handler : CacheHandler)
    (r : BaseCachedImage * ImageCache) : Host :=
  {| coordinator := r.2; instances := <[handler := r.1]> (instances hst) |}.

(** One step of the host.  A lifecycle method that throws in [checkSource]
    leaves the host as it is; one that throws later leaves what it did up
    to there.  After an event of the coordinator, the handlers it called
    have set the state of their instances. *)
Definition host_step (hst : Host) (hev : host_event) : Host :=
  match hev with
  | Mount handler props =>
      match componentWillMount (instance hst handler) handler
              (coordinator hst) props with
      | Some r => put hst handler r
      | None => hst
      end
  | ReceiveProps handler props =>
      match componentWillReceiveProps (instance hst handler) handler
              (coordinator hst) props with
      | Some r => put hst handler r
      | None => hst
      end
  | Unmount handler =>
      {| coordinator :=
           componentWillUnmount (instance hst handler) handler
             (coordinator hst);
         instances := instances hst |}
  | Outside ev =>
      let st := coordinator hst in
      let st' := step st ev in
      {| coordinator := st';
         instances :=
           deliver (drop (List.length (notified st)) (notified st'))
             (instances hst) |}
  end.

Definition host_run (hst : Host) (hevs : list host_event) : Host :=
  foldl host_step hst hevs.

Definition host_init : Host := {| coordinator := init; instances := ∅ |}.

End Component.

(** [st'] has the index of [st], and its entry objects have the observer
    lists they have in [st]. *)
Definition keeps_handlers (st st' : ImageCache) : Prop :=
  cache st' = cache st
  ∧ ∀ l e', heap st' !! l = Some e' →
      ∃ e, heap st !! l = Some e ∧ handlers e' = handlers e.

(** The number of times a handler is in an observer list. *)
Definition occurrences (handler : CacheHandler) (hs : list CacheHandler)
    : nat :=
  List.length (filter (λ h, h = handler) hs).

(** The handler is in no observer list of the index. *)
Definition unregistered (handler : CacheHandler) (st : ImageCache) : Prop :=
  ∀ u l e, cache st !! u = Some l → heap st !! l = Some e →
    handler ∉ handlers e.

(** The handler is at most once in an observer list of the index, and only
    in the list of the URI [claim]. *)
Definition registered_under (handler : CacheHandler) (claim : option string)
    (st : ImageCache) : Prop :=
  ∀ u l e, cache st !! u = Some l → heap st !! l = Some e →
    occurrences handler (handlers e) ≤ 1
    ∧ (handler ∈ handlers e → claim = Some u).

(** The registration of an instance: the coordinator is wired, the handler
    is registered under [this.uri] at most, and [this.uri] is not the empty
    string. *)
Definition disciplined (handler : CacheHandler) (hst : Host) : Prop :=
  wired (cache (coordinator hst)) (heap (coordinator hst))
    (pending (coordinator hst))
  ∧ registered_under handler (this_uri (instance hst handler))
      (coordinator hst)
  ∧ this_uri (instance hst handler) ≠ Some ""%string.

(** The call passes the handler to [on]. *)
Definition registers (handler : CacheHandler) (c : api_call) : Prop :=
  match c with
  | CallOn _ h _ => h = handler
  | _ => False
  end.

(** The body of no handler passes the handler to [on]. *)
Definition private `{Externals} (handler : CacheHandler) : Prop :=
  ∀ h a st c, c ∈ requests (handler_body h a st) → ¬ registers handler c.

(** No code outside the instance passes its handler to [on]: not the
    caller of the event, and not the body of a handler that a settling
    promise runs. *)
Definition keeps_private `{Externals} (handler : CacheHandler)
    (hev : host_event) : Prop :=
  match hev with
  | Outside (On _ h _) => h ≠ handler
  | Outside (Settle _ _) => private handler
  | _ => True
  end.

(** The event is no lifecycle method of the instance, and does not pass
    its handler to [on]. *)
Definition leaves_alone `{Externals} (handler : CacheHandler)
    (hev : host_event) : Prop :=
  match hev with
  | Mount h _ | ReceiveProps h _ => h ≠ handler
  | Outside (On _ h _) => h ≠ handler
  | Outside (Settle _ _) => private handler
  | _ => True
  end.

(** Paths [fs.unlink] was called on so far. *)
Definition unlinked (st : ImageCache) : list string :=
  omap (λ c, match c with FsUnlink p => Some p | _ => None end) (io st).



(** ** Rendering *)

(** The props of a rendered image: the [source] prop, which the types
    require, and the other props by name, with opaque values. *)
Record ImageProps := {
  image_source : ImageSource;
  other_props : gmap string nat;
}.

(** [FILE_PREFIX], from [Platform.OS]. *)
Definition FILE_PREFIX (os : string) : string :=
  if String.eqb os "ios" then ""%string else "file://"%string.

(** [props.source.uri], [undefined] for a number or an array. *)
Definition source_uri (source : ImageSource) : option string :=
  match source with
  | SourceObject src => image_uri src
  | _ => None
  end.

(** [getProps()]: [source], when it has a URI, becomes
    [{uri: FILE_PREFIX + this.state.path}] or [{}]; of the other props,
    [mutable] and [component] are left out. *)
Definition getProps (os : string) (this : BaseCachedImage)
    (props : ImageProps) : ImageProps :=
  {| image_source :=
       if JS.truthy (source_uri (image_source props))
       then
         SourceObject
           {| image_uri :=
                if JS.truthy (state_path this)
                then Some (FILE_PREFIX os +:+
                             default ""%string (state_path this))
                else None;
              image_method := None; image_headers := None |}
       else image_source props;
     other_props :=
       filter (λ kv, kv.1 ∉ ["mutable"; "component"]%string)
         (other_props props) |}.

(** [render()] of [CachedImage], [CachedImageBackground] and
    [CustomCachedImage]: [None] is [null], otherwise the props the element
    is created with. *)
Definition render (os : string) (this : BaseCachedImage)
    (props : ImageProps) : option ImageProps :=
  let props' := getProps os this props in
  match image_source props' with
  | SourceNumber _ => Some props'
  | SourceObject src =>
      match image_uri src with
      | Some _ => Some props'
      | None => None
      end
  | SourceArray _ => None
  end.

(** ** Concrete hosts and props *)

(** A download succeeded, then [clear] ran before its check settled. *)
Definition demo_cleared : ImageCache :=
  demo_run [On (demo_src demo_uri) 1 None; Settle 0 true; Clear].

Definition demo_image (u : string) : ImageURISource :=
  {| image_uri := Some u; image_method := None; image_headers := None |}.

(** [<CachedImage source={{uri: u}} />]. *)
Definition demo_props (u : string) : CachedImageProps :=
  {| source_prop := SourceObject (demo_image u); mutable_prop := None |}.

Definition demo_other_uri : string := "https://x/b.png".

(** One instance, with handler 1, mounted on [demo_uri]. *)
Definition demo_mounted : list host_event := [Mount 1 (demo_props demo_uri)].

Definition demo_host (hevs : list host_event) : Host :=
  @host_run demo (@host_init demo) hevs.

(** The entry of the index after [demo_mounted]. *)
Definition demo_mounted_entry : CacheEntry :=
  {| source := demo_src demo_uri; handlers := [1];
     path := Some (@getPath demo 0 demo_uri true).1; immutable := true;
     task := None |}.

(** An instance whose state has a path, and the props it renders. *)
Definition demo_instance : BaseCachedImage :=
  {| this_uri := Some demo_uri; state_path := Some "/c/f.png"%string |}.

Definition demo_image_props : ImageProps :=
  {| image_source := SourceObject (demo_image demo_uri);
     other_props := {[ "mutable"%string := 1; "style"%string := 2 ]} |}.

(** * Properties *)

(** Evaluate both sides of a closed equation. *)
Ltac by_running := vm_compute; reflexivity.


Section Properties.

Context `{Externals}.

Implicit Types (st : ImageCache) (e : CacheEntry) (u p : string).
Implicit Types (l i n job : nat) (pr : promise) (ev : event).

(** ** Path naming *)



Lemma getPath_immutable n u :
  getPath n u true = (BASE_DIR +:+ "/" +:+ SHA1 u +:+ getPath_ext u, n).
Proof. reflexivity. Qed.

(** ** The guard of [download] *)

Lemma download_busy st l e job :
  heap st !! l = Some e → task e = Some job → download st l = st.
Proof. unfold download. by intros -> ->. Qed.

Lemma download_idle st l e :
  heap st !! l = Some e → task e = None →
  download st l =
    let u := uri (source e) in
    let pn := getPath (draws st) u (immutable e) in
    await (DownloadJob l u pn.1 (jobs st))
      (call (FsDownloadFile (jobs st) u pn.1 (request_headers (source e)))
         (update l (set_task (Some (jobs st)))
            (with_jobs (S (jobs st)) (with_draws pn.2 st)))).
Proof. unfold download. intros -> ->. simpl. by destruct (getPath _ _ _). Qed.

Lemma downloads_call_other c st :
  (∀ job u p h, c ≠ FsDownloadFile job u p h) →
  downloads (call c st) = downloads st.
Proof.
  intros Hc. unfold downloads, call. simpl. rewrite omap_app. simpl.
  destruct c; try by rewrite app_nil_r. by edestruct Hc.
Qed.

(** ** Reading the index *)

Lemma cache_lookup_Some st u l :
  cache st !! u = Some l → cache_lookup st u = Entry l.
Proof. unfold cache_lookup. by intros ->. Qed.

Lemma cache_lookup_None st u :
  cache st !! u = None →
  cache_lookup st u = if JS.inherited u then Inherited else Undefined.
Proof. unfold cache_lookup. by intros ->. Qed.

Lemma cache_lookup_Entry st u l :
  cache_lookup st u = Entry l → cache st !! u = Some l.
Proof.
  unfold cache_lookup. destruct (cache st !! u); [congruence|].
  by destruct (JS.inherited u).
Qed.

Lemma cache_lookup_other st u :
  cache_lookup st u ≠ Undefined ∨ cache st !! u = None.
Proof.
  unfold cache_lookup. destruct (cache st !! u); [by left|by right].
Qed.

(** ** The three cases of [on], [dispose] and [bust] *)

Lemma on_known st src handler imm l :
  cache st !! uri src = Some l →
  on st src handler imm =
    Returns
      (get (update l (λ e, set_handlers (handlers e ++ [handler]) e) st)
         (uri src)).
Proof. unfold on. by intros ->%cache_lookup_Some. Qed.

Lemma on_new st src handler imm :
  cache st !! uri src = None → JS.inherited (uri src) = false →
  on st src handler imm =
    Returns
      (get
         (with_cache (<[uri src := List.length (heap st)]> (cache st))
            (with_heap
               (heap st ++
                  [{| source := src; handlers := [handler];
                      immutable := bool_decide (imm = Some true);
                      path := if bool_decide (imm = Some true)
                              then Some (getPath (draws st) (uri src) true).1
                              else None;
                      task := None |}]) st))
         (uri src)).
Proof.
  intros Hu Hown. unfold on. by rewrite (cache_lookup_None _ _ Hu), Hown.
Qed.

Lemma on_inherited st src handler imm :
  cache st !! uri src = None → JS.inherited (uri src) = true →
  on st src handler imm = Throws st.
Proof.
  intros Hu Hin. unfold on. by rewrite (cache_lookup_None _ _ Hu), Hin.
Qed.

Lemma dispose_known st u handler l :
  cache st !! u = Some l →
  dispose st u handler =
    Returns
      (update l (λ e, set_handlers (dispose_handlers handler (handlers e)) e)
         st).
Proof. unfold dispose. by intros ->%cache_lookup_Some. Qed.

Lemma dispose_unknown st u handler :
  cache st !! u = None →
  dispose st u handler = if JS.inherited u then Throws st else Returns st.
Proof.
  intros Hu. unfold dispose. rewrite (cache_lookup_None _ _ Hu).
  by destruct (JS.inherited u).
Qed.

Lemma bust_unknown st u :
  cache st !! u = None →
  bust st u = if JS.inherited u then Throws st else Returns st.
Proof.
  intros Hu. unfold bust. rewrite (cache_lookup_None _ _ Hu).
  by destruct (JS.inherited u).
Qed.


Lemma lookup_update st l f :
  heap (update l f st) !! l = f <$> heap st !! l.
Proof. apply list_lookup_alter_eq. Qed.

Lemma lookup_update_ne st l l' f :
  l ≠ l' → heap (update l f st) !! l' = heap st !! l'.
Proof. apply list_lookup_alter_ne. Qed.

Lemma bust_mutable st u l e :
  cache st !! u = Some l → heap st !! l = Some e → immutable e = false →
  bust st u = Returns (download (update l (set_path None) st) l)
  ∧ heap (update l (set_path None) st) !! l = Some (set_path None e).
Proof.
  intros Hu Hl Hm. unfold bust. rewrite (cache_lookup_Some _ _ _ Hu), Hl, Hm.
  assert (heap (update l (set_path None) st) !! l = Some (set_path None e))
    as Hl' by (by rewrite lookup_update, Hl).
  split; [|done]. unfold get. cbn [cache update with_heap].
  rewrite Hu. fold (update l (set_path None) st). by rewrite Hl'.
Qed.

(** Whatever the URI, a call of a public method leaves one of these
    states. *)
Lemma on_state st src handler imm :
  state_of (on st src handler imm) = st
  ∨ (∃ l, cache st !! uri src = Some l
          ∧ state_of (on st src handler imm) =
              get (update l (λ e, set_handlers (handlers e ++ [handler]) e)
                     st) (uri src))
  ∨ (cache st !! uri src = None
     ∧ ∃ e, source e = src ∧ handlers e = [handler] ∧ task e = None
            ∧ immutable e = bool_decide (imm = Some true)
            ∧ path e = (if bool_decide (imm = Some true)
                        then Some (getPath (draws st) (uri src) true).1
                        else None)
            ∧ state_of (on st src handler imm) =
                get
                  (with_cache
                     (<[uri src := List.length (heap st)]> (cache st))
                     (with_heap (heap st ++ [e]) st))
                  (uri src)).
Proof.
  destruct (cache st !! uri src) as [l|] eqn:Hu.
  - right. left. exists l. by rewrite (on_known _ _ _ _ _ Hu).
  - destruct (JS.inherited (uri src)) eqn:Hin.
    + left. by rewrite (on_inherited _ _ _ _ Hu Hin).
    + right. right. split; [done|]. rewrite (on_new _ _ _ _ Hu Hin).
      eexists. by repeat split.
Qed.

Lemma dispose_state st u handler :
  state_of (dispose st u handler) = st
  ∨ ∃ l, cache st !! u = Some l
         ∧ state_of (dispose st u handler) =
             update l
               (λ e, set_handlers (dispose_handlers handler (handlers e)) e)
               st.
Proof.
  destruct (cache st !! u) as [l|] eqn:Hu.
  - right. exists l. by rewrite (dispose_known _ _ _ _ Hu).
  - left. rewrite (dispose_unknown _ _ _ Hu). by destruct (JS.inherited u).
Qed.

Lemma bust_state st u :
  state_of (bust st u) = st
  ∨ ∃ l e, cache st !! u = Some l ∧ heap st !! l = Some e
           ∧ immutable e = false
           ∧ state_of (bust st u) = get (update l (set_path None) st) u.
Proof.
  unfold bust, cache_lookup. destruct (cache st !! u) as [l|] eqn:Hu.
  - destruct (heap st !! l) as [e|] eqn:Hl; [|by left].
    destruct (immutable e) eqn:Hm; [by left|]. right. by exists l, e.
  - left. by destruct (JS.inherited u).
Qed.


(** ** Invalidation and cancellation *)

Lemma cancel_state st u :
  cancel st u = st ∨ ∃ job, cancel st u = call (FsStopDownload job) st.
Proof. unfold cancel. repeat case_match; eauto. Qed.

Lemma get_busy st u l e job :
  cache st !! u = Some l → heap st !! l = Some e → task e = Some job →
  heap (get st u) = heap st ∧ cache (get st u) = cache st
  ∧ downloads (get st u) = downloads st
  ∧ inflight (get st u) l = inflight st l.
Proof.
  intros Hu Hl Ht. unfold get. rewrite Hu, Hl.
  destruct (JS.truthy (path e)).
  - repeat split; unfold inflight, downloads; simpl;
      by rewrite omap_app, app_nil_r.
  - by rewrite (download_busy st l e job).
Qed.

(** Claim C10.  [cancel] changes neither the index, nor any entry object,
    nor the unsettled promises; it only calls [fs.stopDownload] when the
    entry has a [task].  [task] stays set, so [download] right after it does
    nothing and a resolution step right after it issues no download. *)
Theorem cancel_frame st u :
  (cache (cancel st u) = cache st ∧ heap (cancel st u) = heap st
   ∧ pending (cancel st u) = pending st ∧ draws (cancel st u) = draws st
   ∧ jobs (cancel st u) = jobs st)
  ∧ (∀ l e job,
       cache st !! u = Some l → heap st !! l = Some e →
       task e = Some job →
       io (cancel st u) = io st ++ [FsStopDownload job]
       ∧ download (cancel st u) l = cancel st u
       ∧ heap (get (cancel st u) u) = heap st
       ∧ downloads (get (cancel st u) u) = downloads st
       ∧ inflight (get (cancel st u) u) l = inflight st l).
Proof.
  split.
  - by destruct (cancel_state st u) as [->|[job ->]].
  - intros l e job Hu Hl Ht.
    assert (cancel st u = call (FsStopDownload job) st) as ->
      by (unfold cancel; by rewrite (cache_lookup_Some _ _ _ Hu), Hl, Ht).
    split; [done|]. split; [by apply (download_busy _ l e job)|].
    destruct (get_busy (call (FsStopDownload job) st) u l e job)
      as (-> & _ & -> & ->); [done..|].
    by rewrite downloads_call_other.
Qed.

(** ** Resolution and the promise callbacks *)

Lemma get_falsy st u l e :
  cache st !! u = Some l → heap st !! l = Some e →
  JS.truthy (path e) = false → get st u = download st l.
Proof. unfold get. by intros -> -> ->. Qed.

Lemma get_truthy st u l e :
  cache st !! u = Some l → heap st !! l = Some e →
  JS.truthy (path e) = true →
  get st u =
    await (ExistsOfGet l u) (call (FsExists (default ""%string (path e))) st).
Proof. unfold get. by intros -> -> ->. Qed.

Lemma step_settle st i ok pr :
  pending st !! i = Some pr →
  step st (Settle i ok) =
    settle (with_pending (delete i (pending st)) st) pr ok.
Proof. simpl. by intros ->. Qed.

Lemma downloads_download st l e :
  heap st !! l = Some e → task e = None →
  downloads (download st l) =
    downloads st ++
      [(jobs st, uri (source e),
        (getPath (draws st) (uri (source e)) (immutable e)).1)]
  ∧ heap (download st l) !! l = Some (set_task (Some (jobs st)) e)
  ∧ inflight (download st l) l = inflight st l ++ [jobs st].
Proof.
  intros Hl Ht. rewrite (download_idle st l e) by done. cbn zeta.
  split; [|split].
  - unfold downloads. simpl. by rewrite omap_app.
  - unfold await, call. simpl. fold (update l (set_task (Some (jobs st))) st).
    by rewrite list_lookup_alter_eq, Hl.
  - unfold inflight. simpl. rewrite omap_app. simpl. by rewrite decide_True.
Qed.


(** An entry with no running download launches one at the next resolution
    step that reaches [download]. *)
Lemma retry_on st src handler imm l e :
  cache st !! uri src = Some l → heap st !! l = Some e → task e = None →
  let st2 := on st src handler imm in
  let fresh :=
    (jobs st, uri (source e),
     (getPath (draws st) (uri (source e)) (immutable e)).1) in
  if JS.truthy (path e)
  then pending st2 = pending st ++ [ExistsOfGet l (uri src)]
       ∧ downloads st2 = downloads st
       ∧ downloads (step st2 (Settle (List.length (pending st)) false)) =
           downloads st ++ [fresh]
  else downloads st2 = downloads st ++ [fresh].
Proof.
  intros Hu Hl Ht. cbn zeta. rewrite (on_known _ _ _ _ _ Hu).
  cbn [state_of].
  set (st' := update l _ st).
  set (e' := set_handlers (handlers e ++ [handler]) e).
  assert (heap st' !! l = Some e') as Hl'
    by (unfold st'; by rewrite lookup_update, Hl).
  destruct (JS.truthy (path e)) eqn:Hp.
  - rewrite (get_truthy st' _ l e') by done.
    split; [done|]. split.
    { unfold downloads. simpl. by rewrite omap_app, app_nil_r. }
    erewrite step_settle; last first.
    { simpl. by rewrite lookup_app_r, Nat.sub_diag. }
    simpl. replace (delete _ _) with (pending st); last first.
    { by rewrite delete_middle, app_nil_r. }
    match goal with |- downloads (download ?s l) = _ =>
      destruct (downloads_download s l e') as (-> & _); [done..|] end.
    unfold downloads. simpl. by rewrite omap_app, app_nil_r.
  - rewrite (get_falsy st' _ l e') by done.
    by destruct (downloads_download st' l e') as (-> & _).
Qed.

Lemma retry_bust st u l e :
  cache st !! u = Some l → heap st !! l = Some e → task e = None →
  immutable e = false →
  downloads (bust st u) =
    downloads st ++
      [(jobs st, uri (source e), (getPath (draws st) (uri (source e)) false).1)].
Proof.
  intros Hu Hl Ht Hm.
  destruct (bust_mutable st u l e) as (-> & Hl'); [done..|]. cbn [state_of].
  destruct (downloads_download _ l _ Hl') as (-> & _); [done|].
  simpl. by rewrite Hm.
Qed.

(** Claim C8.  When a download fails (rejection, also after
    [stopDownload]), [task] of its entry is cleared, [fs.unlink] is called
    on the destination and nothing else: no handler runs and the rest of
    the entry is as before.  The entry can be fetched again: a later [on]
    for its URI issues a new download, at once when [path] is empty and
    otherwise when the existence check it starts reports the file missing;
    a later [bust] issues one at once when the entry is not immutable. *)
Theorem download_failure_recovers st i l u p job e :
  pending st !! i = Some (DownloadJob l u p job) →
  heap st !! l = Some e →
  let st1 := step st (Settle i false) in
  (heap st1 !! l = Some (set_task None e)
   ∧ io st1 = io st ++ [FsUnlink p]
   ∧ notified st1 = notified st
   ∧ pending st1 = delete i (pending st)
   ∧ cache st1 = cache st)
  ∧ (∀ src handler imm,
       cache st !! uri src = Some l →
       let st2 := on st1 src handler imm in
       let fresh :=
         (jobs st, uri (source e),
          (getPath (draws st) (uri (source e)) (immutable e)).1) in
       if JS.truthy (path e)
       then pending st2 = pending st1 ++ [ExistsOfGet l (uri src)]
            ∧ downloads (step st2 (Settle (List.length (pending st1)) false))
              = downloads st ++ [fresh]
       else downloads st2 = downloads st ++ [fresh])
  ∧ (∀ u',
       cache st !! u' = Some l → immutable e = false →
       downloads (bust st1 u') =
         downloads st ++
           [(jobs st, uri (source e),
             (getPath (draws st) (uri (source e)) false).1)]).
Proof.
  intros Hi Hl st1.
  assert (st1 = call (FsUnlink p)
            (update l (set_task None)
               (with_pending (delete i (pending st)) st))) as Hst1
    by (unfold st1; by rewrite (step_settle _ _ _ _ Hi)).
  assert (heap st1 !! l = Some (set_task None e)) as Hl1.
  { rewrite Hst1. simpl. by rewrite list_lookup_alter_eq, Hl. }
  assert (downloads st1 = downloads st) as Hd.
  { rewrite Hst1. by rewrite downloads_call_other. }
  split; [|split].
  - split; [done|]. rewrite Hst1. repeat split.
    unfold notified. simpl. by rewrite omap_app, app_nil_r.
  - intros src handler imm Hu. cbn zeta.
    assert (cache st1 !! uri src = Some l) as Hu1 by (by rewrite Hst1).
    pose proof (retry_on st1 src handler imm l (set_task None e)
                  Hu1 Hl1 eq_refl) as Hr.
    cbn zeta in Hr. rewrite Hd in Hr.
    replace (jobs st1) with (jobs st) in Hr by (by rewrite Hst1).
    replace (draws st1) with (draws st) in Hr by (by rewrite Hst1).
    cbn [path source immutable set_task] in Hr.
    destruct (JS.truthy (path e)); [|done]. by destruct Hr as (? & ? & ?).
  - intros u' Hu Hm.
    rewrite (retry_bust st1 u' l (set_task None e)); try done.
    + rewrite Hd. by rewrite Hst1.
    + by rewrite Hst1.
Qed.

(** ** What the bodies of handlers preserve *)

Lemma step_perform st c :
  perform st c =
    step st
      match c with
      | CallOn src handler imm => On src handler imm
      | CallDispose u handler => Dispose u handler
      | CallBust u => Bust u
      | CallCancel u => Cancel u
      | CallClear => Clear
      end.
Proof. by destruct c. Qed.

(** A property of the state that the recording of a handler call and the
    public methods keep is kept by the fan-out, whatever the handlers do.
    [Q] is what is known of the calls the bodies make, and the property may
    be about the entry object [l0] whose observer list is iterated. *)
Section Invariance.

Variable P : ImageCache → Prop.
Variable Q : api_call → Prop.
Variables (l0 : nat) (u : string).

Hypothesis bodies :
  ∀ h a st c, c ∈ requests (handler_body h a st) → Q c.
Hypothesis P_called :
  ∀ st h a e k,
    P st → heap st !! l0 = Some e → handlers e !! k = Some h →
    P (call (Handler h a) st).
Hypothesis P_perform : ∀ st c, Q c → P st → P (perform st c).

Lemma invariant_requests st cs :
  (∀ c, c ∈ cs → Q c) → P st → P (foldl perform st cs).
Proof.
  revert st. induction cs as [|c cs IH]; intros st Hcs HP; [done|].
  simpl. apply IH.
  - intros c' ?. apply Hcs. by right.
  - apply P_perform; [|done]. apply Hcs. by left.
Qed.

Lemma invariant_react st h a :
  P (call (Handler h a) st) → P (react st h a).
Proof.
  intros HP. unfold react. cbn zeta.
  assert (P (foldl perform (call (Handler h a) st)
               (requests (handler_body h a (call (Handler h a) st)))))
    by (apply invariant_requests; [apply bodies|done]).
  by destruct (raises _).
Qed.

Lemma invariant_notify_loop visits k st :
  P st → P (notify_loop visits k l0 u st).
Proof.
  revert k st. induction visits as [|visits IH]; intros k st HP; [done|].
  cbn [notify_loop].
  destruct (heap st !! l0) as [e|] eqn:Hl; cbn [mbind option_bind];
    [|by apply IH].
  destruct (handlers e !! k) as [h|] eqn:Hk; [|by apply IH].
  destruct (current_path st u) as [a|]; [|done].
  assert (P (react st h a)) as HP'
    by (apply invariant_react; by apply (P_called st h a e k)).
  destruct (react st h a) as [st'|st']; [by apply IH|done].
Qed.

End Invariance.

Lemma invariant_notify (P : ImageCache → Prop) (Q : api_call → Prop)
    st u l0 :
  (∀ h a st c, c ∈ requests (handler_body h a st) → Q c) →
  (∀ st h a e k,
     P st → heap st !! l0 = Some e → handlers e !! k = Some h →
     P (call (Handler h a) st)) →
  (∀ st c, Q c → P st → P (perform st c)) →
  cache st !! u = Some l0 → P st → P (notify st u).
Proof.
  intros Hbodies Hcalled Hperform Hu HP. unfold notify.
  rewrite (cache_lookup_Some _ _ _ Hu).
  destruct (heap st !! l0) as [e|]; [|done].
  by apply (invariant_notify_loop P Q l0 u Hbodies Hcalled Hperform).
Qed.

(** With nothing under the URI, [notify] throws before any handler runs. *)
Lemma notify_orphan st u : cache st !! u = None → notify st u = Throws st.
Proof.
  intros Hu. unfold notify. rewrite (cache_lookup_None _ _ Hu).
  by destruct (JS.inherited u).
Qed.

(** The same for a property that is not about the iterated list. *)
Lemma preserved_by_notify (P : ImageCache → Prop) (Q : api_call → Prop)
    st u :
  (∀ h a st c, c ∈ requests (handler_body h a st) → Q c) →
  (∀ st h a, P st → P (call (Handler h a) st)) →
  (∀ st c, Q c → P st → P (perform st c)) →
  P st → P (notify st u).
Proof.
  intros Hbodies Hcalled Hperform HP.
  destruct (cache st !! u) as [l0|] eqn:Hu.
  - apply (invariant_notify P Q st u l0); auto.
  - by rewrite (notify_orphan _ _ Hu).
Qed.

(** [notify] throws by itself only when the index has nothing under the
    URI. *)
Lemma notify_loop_throws visits k l0 u st st' :
  no_handler_throws →
  notify_loop visits k l0 u st = Throws st' → cache st' !! u = None.
Proof.
  intros Hquiet. revert k st.
  induction visits as [|visits IH]; intros k st; [done|]. cbn [notify_loop].
  destruct (heap st !! l0 ≫= _) as [h|]; [|apply IH].
  unfold current_path, cache_lookup.
  destruct (cache st !! u) as [l|] eqn:Hu.
  - unfold react. cbn zeta. rewrite Hquiet. apply IH.
  - destruct (JS.inherited u); [|by intros [= <-]].
    unfold react. cbn zeta. rewrite Hquiet. apply IH.
Qed.

Lemma notify_throws st u st' :
  no_handler_throws →
  (∀ l, cache st !! u = Some l → is_Some (heap st !! l)) →
  notify st u = Throws st' → cache st' !! u = None.
Proof.
  intros Hquiet Hw. unfold notify, cache_lookup.
  destruct (cache st !! u) as [l|] eqn:Hu.
  - destruct (Hw l eq_refl) as [e ->]. by apply notify_loop_throws.
  - destruct (JS.inherited u); by intros [= <-].
Qed.

(** ** Entry objects persist *)

Lemma extends_refl h : extends h h.
Proof. intros l e ?. eauto. Qed.

Lemma extends_trans h1 h2 h3 : extends h1 h2 → extends h2 h3 → extends h1 h3.
Proof.
  intros H12 H23 l e Hl. destruct (H12 l e Hl) as (e2 & Hl2 & <- & <-).
  apply (H23 l e2 Hl2).
Qed.

Lemma extends_alter h l f :
  (∀ e, source (f e) = source e ∧ immutable (f e) = immutable e) →
  extends h (alter f l h).
Proof.
  intros Hf l' e Hl'. destruct (decide (l = l')) as [->|Hne].
  - exists (f e). rewrite list_lookup_alter_eq, Hl'. split; [done|apply Hf].
  - exists e. by rewrite list_lookup_alter_ne.
Qed.

Lemma extends_app h e : extends h (h ++ [e]).
Proof. intros l e' Hl. exists e'. split; [by apply lookup_app_l_Some|done]. Qed.

Lemma extends_download st l : extends (heap st) (heap (download st l)).
Proof.
  unfold download. repeat case_match; try apply extends_refl.
  by apply extends_alter.
Qed.

Lemma extends_get st u : extends (heap st) (heap (get st u)).
Proof.
  unfold get. repeat case_match; try apply extends_refl.
  apply extends_download.
Qed.

Lemma extends_perform st c : extends (heap st) (heap (perform st c)).
Proof.
  destruct c as [src handler imm|u handler|u|u|]; cbn [perform].
  - destruct (on_state st src handler imm)
      as [->|[(l & _ & ->)|(_ & e & _ & _ & _ & _ & _ & ->)]];
      [apply extends_refl|..];
      (eapply extends_trans; [|apply extends_get]); simpl;
      [by apply extends_alter|apply extends_app].
  - destruct (dispose_state st u handler) as [->|(l & _ & ->)];
      [apply extends_refl|by apply extends_alter].
  - destruct (bust_state st u) as [->|(l & e & _ & _ & _ & ->)];
      [apply extends_refl|].
    eapply extends_trans; [|apply extends_get]. by apply extends_alter.
  - destruct (cancel_state st u) as [->|[job ->]]; apply extends_refl.
  - apply extends_refl.
Qed.

Lemma extends_notify st u : extends (heap st) (heap (notify st u)).
Proof.
  apply (preserved_by_notify (λ s, extends (heap st) (heap s)) (λ _, True));
    [done|done| |apply extends_refl].
  intros s c _ Hs. eapply extends_trans; [done|apply extends_perform].
Qed.

Lemma extends_settle st pr ok : extends (heap st) (heap (settle st pr ok)).
Proof.
  destruct pr, ok; simpl; try apply extends_refl.
  - apply extends_notify.
  - apply extends_download.
  - eapply extends_trans; by apply extends_alter.
  - by apply extends_alter.
  - pose proof (extends_notify st u) as Hn.
    destruct (notify st u) as [st'|st']; [done|]. simpl.
    eapply extends_trans; [done|]. by apply extends_alter.
Qed.

Lemma extends_step st ev : extends (heap st) (heap (step st ev)).
Proof.
  destruct ev as [src handler imm|u handler|u|u| |i ok].
  - apply (extends_perform st (CallOn src handler imm)).
  - apply (extends_perform st (CallDispose u handler)).
  - apply (extends_perform st (CallBust u)).
  - apply (extends_perform st (CallCancel u)).
  - apply (extends_perform st CallClear).
  - simpl. case_match; [|apply extends_refl].
    apply (extends_settle (with_pending _ st)).
Qed.

Lemma extends_run st evs : extends (heap st) (heap (run st evs)).
Proof.
  revert st. induction evs as [|ev evs IH]; intros st; [apply extends_refl|].
  eapply extends_trans; [apply extends_step|apply IH].
Qed.

(** ** Paths of immutable entries *)

Lemma immutable_path_getPath n u : (getPath n u true).1 = immutable_path u.
Proof. reflexivity. Qed.

Lemma paths_ok_alter h ps l f :
  paths_ok h ps →
  (∀ e, h !! l = Some e →
     source (f e) = source e ∧ immutable (f e) = immutable e
     ∧ (immutable e = true → path (f e) = path e)) →
  paths_ok (alter f l h) ps.
Proof.
  intros (HA & HB & HC) Hf.
  assert (∀ l' e', alter f l h !! l' = Some e' →
            ∃ e, h !! l' = Some e ∧ source e' = source e
                 ∧ immutable e' = immutable e
                 ∧ (immutable e = true → path e' = path e)) as Hback.
  { intros l' e'. destruct (decide (l = l')) as [->|Hne].
    - rewrite list_lookup_alter_eq. destruct (h !! l') as [e|] eqn:Hl; [|done].
      intros [= <-]. exists e. destruct (Hf e eq_refl) as (? & ? & ?). eauto.
    - rewrite list_lookup_alter_ne by done. intros Hl. exists e'. eauto. }
  split; [|split].
  - intros l' e' Hl' Hm. destruct (Hback l' e' Hl') as (e & Hl & -> & Hi & Hp).
    rewrite Hi in Hm. rewrite (Hp Hm). by apply (HA l').
  - intros pr Hpr. rewrite length_alter. by apply HB.
  - intros l' u p job e' Hpr Hl' Hm.
    destruct (Hback l' e' Hl') as (e & Hl & -> & Hi & Hp).
    rewrite Hi in Hm. by apply (HC l' u p job e).
Qed.

Lemma paths_ok_await h ps pr :
  paths_ok h ps → holder pr < List.length h →
  (∀ l u p job e,
     pr = DownloadJob l u p job → h !! l = Some e → immutable e = true →
     p = immutable_path (uri (source e))) →
  paths_ok h (ps ++ [pr]).
Proof.
  intros (HA & HB & HC) Hlt Hpr. split; [done|]. split.
  - intros pr' [?| ->%list_elem_of_singleton]%elem_of_app; auto.
  - intros l u p job e [?| <-%list_elem_of_singleton]%elem_of_app; eauto.
Qed.

Lemma paths_ok_delete h ps i : paths_ok h ps → paths_ok h (delete i ps).
Proof.
  intros (HA & HB & HC). split; [done|].
  split; eauto using list_elem_of_delete_inv.
Qed.

Lemma paths_ok_settled h ps i pr :
  paths_ok h ps → ps !! i = Some pr → paths_ok h (pr :: delete i ps).
Proof.
  intros (HA & HB & HC) Hi. apply list_elem_of_lookup_2 in Hi.
  split; [done|]. split.
  - intros pr' [->|?]%elem_of_cons; eauto using list_elem_of_delete_inv.
  - intros l u p job e [<-|?]%elem_of_cons; eauto using list_elem_of_delete_inv.
Qed.

Lemma paths_ok_alloc h ps e :
  paths_ok h ps →
  (immutable e = true → path e = Some (immutable_path (uri (source e)))) →
  paths_ok (h ++ [e]) ps.
Proof.
  intros (HA & HB & HC) He.
  assert (∀ l e', (h ++ [e]) !! l = Some e' →
            h !! l = Some e' ∨ (l = List.length h ∧ e' = e)) as Hback.
  { intros l e' [?|[? Hl]]%lookup_app_Some; [by left|right].
    destruct (l - List.length h) as [|k] eqn:Hk; [|by destruct k].
    simplify_eq/=. split; [lia|done]. }
  split; [|split].
  - intros l e' [?|[-> ->]]%Hback; eauto.
  - intros pr Hpr. rewrite length_app. specialize (HB pr Hpr). lia.
  - intros l u p job e' Hpr [?|[-> ->]]%Hback; eauto.
    specialize (HB _ Hpr). simpl in HB. lia.
Qed.

Lemma paths_ok_download st l :
  paths_ok (heap st) (pending st) →
  paths_ok (heap (download st l)) (pending (download st l)).
Proof.
  intros Hok. unfold download.
  destruct (heap st !! l) as [e|] eqn:Hl; [|done].
  destruct (task e); [done|].
  destruct (getPath _ _ _) as [p n] eqn:Hp. simpl.
  apply paths_ok_await.
  - by apply paths_ok_alter.
  - rewrite length_alter. by eapply lookup_lt_Some.
  - intros l' u' p' job' e' [= <- <- <- <-].
    rewrite list_lookup_alter_eq, Hl. intros [= <-]. simpl. intros Hm.
    rewrite Hm in Hp. by rewrite <- (immutable_path_getPath (draws st)), Hp.
Qed.

Lemma paths_ok_get st u :
  paths_ok (heap st) (pending st) →
  paths_ok (heap (get st u)) (pending (get st u)).
Proof.
  intros Hok. unfold get.
  destruct (cache st !! u) as [l|]; [|done].
  destruct (heap st !! l) as [e|] eqn:Hl; [|done].
  destruct (JS.truthy (path e)); [|by apply paths_ok_download].
  simpl. apply paths_ok_await; [done| |done]. by eapply lookup_lt_Some.
Qed.

Lemma paths_ok_perform st c :
  paths_ok (heap st) (pending st) →
  paths_ok (heap (perform st c)) (pending (perform st c)).
Proof.
  intros Hok. destruct c as [src handler imm|u handler|u|u|]; cbn [perform].
  - destruct (on_state st src handler imm)
      as [->|[(l & _ & ->)|(_ & e & Hs & _ & _ & Hi & Hp & ->)]]; [done|..];
      apply paths_ok_get; simpl; [by apply paths_ok_alter|].
    apply paths_ok_alloc; [done|]. rewrite Hi, Hp, Hs. by intros ->.
  - destruct (dispose_state st u handler) as [->|(l & _ & ->)]; [done|].
    by apply paths_ok_alter.
  - destruct (bust_state st u) as [->|(l & e & _ & Hl & Hm & ->)]; [done|].
    apply paths_ok_get. simpl. apply paths_ok_alter; [done|].
    intros e' ?. repeat split. simplify_eq. congruence.
  - by destruct (cancel_state st u) as [->|[job ->]].
  - done.
Qed.

Lemma paths_ok_notify st u :
  paths_ok (heap st) (pending st) →
  paths_ok (heap (notify st u)) (pending (notify st u)).
Proof.
  apply (preserved_by_notify (λ s, paths_ok (heap s) (pending s))
           (λ _, True)); [done|done|].
  intros s c _. apply paths_ok_perform.
Qed.

Lemma paths_ok_settle st pr ok :
  paths_ok (heap st) (pr :: pending st) →
  paths_ok (heap (settle st pr ok)) (pending (settle st pr ok)).
Proof.
  intros Hall.
  assert (paths_ok (heap st) (pending st)) as Hok
    by apply (paths_ok_delete _ (pr :: pending st) 0 Hall).
  assert (holder pr < List.length (heap st)) as Hlt
    by (apply Hall; left).
  destruct pr as [l u|l u p job|l u p], ok; simpl; try done.
  - by apply paths_ok_notify.
  - by apply paths_ok_download.
  - apply paths_ok_await; [|by rewrite !length_alter|done].
    apply paths_ok_alter; [by apply paths_ok_alter|].
    intros e. rewrite list_lookup_alter_eq.
    destruct (heap st !! l) as [e0|] eqn:Hl; [|done]. intros [= <-].
    repeat split. simpl. intros Hm.
    destruct Hall as (HA & _ & HC).
    rewrite (HC l u p job e0); [symmetry; by apply (HA l)|left|done..].
  - by apply paths_ok_alter.
  - pose proof (paths_ok_notify st u Hok) as Hn.
    destruct (notify st u) as [st'|st']; [done|]. simpl.
    by apply paths_ok_alter.
Qed.

Lemma paths_ok_step st ev :
  paths_ok (heap st) (pending st) →
  paths_ok (heap (step st ev)) (pending (step st ev)).
Proof.
  intros Hok. destruct ev as [src handler imm|u handler|u|u| |i ok].
  - by apply (paths_ok_perform st (CallOn src handler imm)).
  - by apply (paths_ok_perform st (CallDispose u handler)).
  - by apply (paths_ok_perform st (CallBust u)).
  - by apply (paths_ok_perform st (CallCancel u)).
  - by apply (paths_ok_perform st CallClear).
  - simpl. destruct (pending st !! i) as [pr|] eqn:Hi; [|done].
    apply (paths_ok_settle (with_pending _ st)). simpl.
    by apply paths_ok_settled.
Qed.

Lemma paths_ok_run st evs :
  paths_ok (heap st) (pending st) →
  paths_ok (heap (run st evs)) (pending (run st evs)).
Proof.
  revert st. induction evs as [|ev evs IH]; intros st Hok; [done|].
  apply IH. by apply paths_ok_step.
Qed.

Lemma paths_ok_init : paths_ok (heap init) (pending init).
Proof.
  split; [|split]; simpl.
  - by intros [|l] e.
  - by intros pr ?%elem_of_nil.
  - by intros l u p job e ?%elem_of_nil.
Qed.

(** Claim C4.  In every state reached from the initial one, by any
    sequence of events, an immutable entry object has as [path] the path
    derived from its URI; every download running for it has that same path
    as destination, so the write made when it succeeds stores the same
    value; and after any further sequence of events the entry object is
    still there, immutable, with the same [source] and the same [path]. *)
Theorem immutable_path_never_changes evs l e :
  heap (run init evs) !! l = Some e → immutable e = true →
  path e = Some (immutable_path (uri (source e)))
  ∧ (∀ u p job,
       DownloadJob l u p job ∈ pending (run init evs) →
       p = immutable_path (uri (source e)))
  ∧ (∀ evs', ∃ e',
       heap (run (run init evs) evs') !! l = Some e'
       ∧ immutable e' = true ∧ source e' = source e ∧ path e' = path e).
Proof.
  intros Hl Hm.
  pose proof (paths_ok_run init evs paths_ok_init) as (HA & _ & HC).
  split; [by apply (HA l)|]. split; [by eauto|].
  intros evs'.
  destruct (extends_run (run init evs) evs' l e Hl) as (e' & Hl' & Hs & Hi).
  exists e'. rewrite Hi, Hs. repeat split; try done.
  pose proof (paths_ok_run _ evs' (paths_ok_run init evs paths_ok_init))
    as (HA' & _).
  rewrite (HA l e Hl Hm), (HA' l e' Hl'); [by rewrite Hs|congruence].
Qed.

(** ** One download at a time *)









Lemma same_shape_refl st : same_shape st st.
Proof. done. Qed.

Lemma same_shape_trans st1 st2 st3 :
  same_shape st1 st2 → same_shape st2 st3 → same_shape st1 st3.
Proof. intros [??] [??]. split; congruence. Qed.

Lemma same_shape_update st l f : same_shape st (update l f st).
Proof. split; [done|]. apply length_alter. Qed.

Lemma same_shape_download st l : same_shape st (download st l).
Proof.
  unfold download. repeat case_match; try done.
  split; [done|]. apply length_alter.
Qed.

Lemma same_shape_get st u : same_shape st (get st u).
Proof.
  unfold get. repeat case_match; try done. apply same_shape_download.
Qed.




Lemma wired_alter c h ps l f :
  wired c h ps → (∀ e, source (f e) = source e) → wired c (alter f l h) ps.
Proof.
  intros (H1 & H2) Hf.
  assert (∀ l' e' u, h !! l' = Some e' → uri (source e') = u →
            ∃ e, alter f l h !! l' = Some e ∧ uri (source e) = u) as Hfwd.
  { intros l' e' u Hl' Hu'. destruct (decide (l = l')) as [->|Hne].
    - exists (f e'). by rewrite list_lookup_alter_eq, Hl', Hf.
    - exists e'. by rewrite list_lookup_alter_ne. }
  split.
  - intros u l' (e' & ? & ?)%H1. eauto.
  - intros pr (e' & ? & ?)%H2. eauto.
Qed.

Lemma wired_await c h ps pr :
  wired c h ps →
  (∃ e, h !! holder pr = Some e ∧ uri (source e) = subject pr) →
  wired c h (ps ++ [pr]).
Proof.
  intros (H1 & H2) Hpr. split; [done|].
  intros pr' [?| ->%list_elem_of_singleton]%elem_of_app; auto.
Qed.

Lemma wired_delete c h ps i : wired c h ps → wired c h (delete i ps).
Proof.
  intros (H1 & H2). split; eauto using list_elem_of_delete_inv.
Qed.

Lemma wired_download st l :
  wired (cache st) (heap st) (pending st) →
  wired (cache (download st l)) (heap (download st l))
    (pending (download st l)).
Proof.
  intros Hok. unfold download.
  destruct (heap st !! l) as [e|] eqn:Hl; [|done].
  destruct (task e); [done|].
  destruct (getPath _ _ _) as [p n]. simpl.
  apply wired_await; [by apply wired_alter|]. simpl.
  exists (set_task (Some (jobs st)) e). by rewrite list_lookup_alter_eq, Hl.
Qed.

Lemma wired_get st u :
  wired (cache st) (heap st) (pending st) →
  wired (cache (get st u)) (heap (get st u)) (pending (get st u)).
Proof.
  intros Hok. unfold get.
  destruct (cache st !! u) as [l|] eqn:Hu; [|done].
  destruct (heap st !! l) as [e|] eqn:Hl; [|done].
  destruct (JS.truthy (path e)); [|by apply wired_download].
  simpl. apply wired_await; [done|]. simpl.
  destruct Hok as (H1 & _). destruct (H1 u l Hu) as (e' & ? & ?).
  exists e. split; congruence.
Qed.

Lemma wired_alloc c h ps e :
  wired c h ps → c !! uri (source e) = None →
  wired (<[uri (source e) := List.length h]> c) (h ++ [e]) ps.
Proof.
  intros (H1 & H2) Hnew. split.
  - intros u l. destruct (decide (uri (source e) = u)) as [<-|Hne].
    + rewrite lookup_insert_eq. intros [= <-]. exists e.
      by rewrite lookup_app_r, Nat.sub_diag.
    + rewrite lookup_insert_ne by done. intros (e' & ? & ?)%H1.
      exists e'. split; [by apply lookup_app_l_Some|done].
  - intros pr (e' & ? & ?)%H2. exists e'.
    split; [by apply lookup_app_l_Some|done].
Qed.

Lemma wired_perform st c :
  wired (cache st) (heap st) (pending st) →
  wired (cache (perform st c)) (heap (perform st c)) (pending (perform st c)).
Proof.
  intros Hw. destruct c as [src handler imm|u handler|u|u|]; cbn [perform].
  - destruct (on_state st src handler imm)
      as [->|[(l & _ & ->)|(Hu & e & Hs & _ & _ & _ & _ & ->)]]; [done|..];
      apply wired_get; simpl; [by apply wired_alter|].
    rewrite <- Hs. apply wired_alloc; [done|]. by rewrite Hs.
  - destruct (dispose_state st u handler) as [->|(l & _ & ->)]; [done|].
    by apply wired_alter.
  - destruct (bust_state st u) as [->|(l & e & _ & _ & _ & ->)]; [done|].
    apply wired_get. by apply wired_alter.
  - by destruct (cancel_state st u) as [->|[job ->]].
  - destruct Hw as (_ & H2). split; [|done].
    intros u l. simpl. by rewrite lookup_empty.
Qed.

Lemma wired_notify st u :
  wired (cache st) (heap st) (pending st) →
  wired (cache (notify st u)) (heap (notify st u)) (pending (notify st u)).
Proof.
  apply (preserved_by_notify (λ s, wired (cache s) (heap s) (pending s))
           (λ _, True)); [done|done|].
  intros s c _. apply wired_perform.
Qed.

Lemma wired_settle st i pr ok :
  wired (cache st) (heap st) (pending st) → pending st !! i = Some pr →
  let st' := settle (with_pending (delete i (pending st)) st) pr ok in
  wired (cache st') (heap st') (pending st').
Proof.
  intros Hw Hi. cbn zeta.
  set (st1 := with_pending (delete i (pending st)) st).
  assert (wired (cache st1) (heap st1) (pending st1)) as Hw1
    by (by apply wired_delete).
  assert (∃ e, heap st !! holder pr = Some e ∧ uri (source e) = subject pr)
    as Hpr.
  { destruct Hw as (_ & H2). apply H2. by eapply list_elem_of_lookup_2. }
  destruct pr as [l u|l u p job|l u p], ok; simpl; try done.
  - by apply wired_notify.
  - by apply wired_download.
  - apply wired_await; [apply wired_alter; [by apply wired_alter|done]|].
    simpl in *. destruct Hpr as (e & Hl & Hu).
    exists (set_path (Some p) (set_task None e)).
    by rewrite !list_lookup_alter_eq, Hl.
  - by apply wired_alter.
  - pose proof (wired_notify st1 u Hw1) as Hn.
    destruct (notify st1 u) as [st2|st2]; [done|]. simpl.
    by apply wired_alter.
Qed.

Lemma wired_step st ev :
  wired (cache st) (heap st) (pending st) →
  wired (cache (step st ev)) (heap (step st ev)) (pending (step st ev)).
Proof.
  intros Hw. destruct ev as [src handler imm|u handler|u|u| |i ok].
  - by apply (wired_perform st (CallOn src handler imm)).
  - by apply (wired_perform st (CallDispose u handler)).
  - by apply (wired_perform st (CallBust u)).
  - by apply (wired_perform st (CallCancel u)).
  - by apply (wired_perform st CallClear).
  - simpl. destruct (pending st !! i) as [pr|] eqn:Hi; [|done].
    by apply wired_settle.
Qed.

Lemma wired_run st evs :
  wired (cache st) (heap st) (pending st) →
  wired (cache (run st evs)) (heap (run st evs)) (pending (run st evs)).
Proof.
  revert st. induction evs as [|ev evs IH]; intros st Hw; [done|].
  apply IH. by apply wired_step.
Qed.

Lemma wired_init : wired (cache init) (heap init) (pending init).
Proof.
  split; simpl.
  - intros u l. by rewrite lookup_empty.
  - by intros pr ?%elem_of_nil.
Qed.







Lemma coherent_init : coherent init.
Proof.
  split; [split|]; simpl.
  - intros u l. by rewrite lookup_empty.
  - by intros pr ?%elem_of_nil.
  - by intros [|l].
Qed.




(** ** The fan-out to quiet handlers *)

Lemma calls_nil st : calls [] st = st.
Proof. destruct st. unfold calls. simpl. by rewrite app_nil_r. Qed.

Lemma calls_cons c cs st : calls (c :: cs) st = calls cs (call c st).
Proof. unfold calls, call. simpl. by rewrite <- app_assoc. Qed.

Lemma react_quiet st h a :
  handler_body h a (call (Handler h a) st) = quiet →
  react st h a = Returns (call (Handler h a) st).
Proof. unfold react. cbn zeta. by intros ->. Qed.

Lemma notify_loop_quiet visits k st u l e :
  cache st !! u = Some l → heap st !! l = Some e →
  (∀ h, h ∈ handlers e → ∀ a s, handler_body h a s = quiet) →
  List.length (handlers e) ≤ k + visits →
  notify_loop visits k l u st =
    Returns (calls ((λ h, Handler h (path e)) <$> drop k (handlers e)) st).
Proof.
  intros Hu Hl Hq. revert k st Hu Hl.
  induction visits as [|visits IH]; intros k st Hu Hl Hlen.
  { rewrite drop_ge by lia. by rewrite calls_nil. }
  cbn [notify_loop]. rewrite Hl. cbn [mbind option_bind].
  destruct (handlers e !! k) as [h|] eqn:Hk.
  - unfold current_path. rewrite (cache_lookup_Some _ _ _ Hu), Hl.
    cbn [mbind option_bind].
    rewrite react_quiet
      by (apply Hq; by eapply list_elem_of_lookup_2).
    rewrite (IH (S k)) by (done || lia).
    by rewrite (drop_S _ _ _ Hk), fmap_cons, calls_cons.
  - apply lookup_ge_None in Hk.
    rewrite (IH (S k)) by (done || lia).
    by rewrite !drop_ge by lia.
Qed.

(** Handlers that make no call and do not throw are called one after the
    other, each with the [path] of the entry. *)
Lemma notify_quiet st u l e :
  cache st !! u = Some l → heap st !! l = Some e →
  (∀ h, h ∈ handlers e → ∀ a s, handler_body h a s = quiet) →
  notify st u =
    Returns (calls ((λ h, Handler h (path e)) <$> handlers e) st).
Proof.
  intros Hu Hl Hq. unfold notify. rewrite (cache_lookup_Some _ _ _ Hu), Hl.
  by rewrite (notify_loop_quiet _ 0 st u l e).
Qed.

Lemma downloads_calls_handlers st hs a :
  downloads (calls ((λ h, Handler h a) <$> hs) st) = downloads st.
Proof.
  unfold downloads. simpl. rewrite omap_app.
  rewrite <- (app_nil_r (omap _ (io st))) at 2. f_equal. by induction hs.
Qed.





(** ** Unregistering *)

Lemma filter_delete_skip {A} (P : A → Prop) `{∀ x, Decision (P x)}
    (xs : list A) k x :
  xs !! k = Some x → ¬ P x → filter P (delete k xs) = filter P xs.
Proof.
  revert k. induction xs as [|a xs IH]; intros [|k] Hk Hx; try done.
  - simpl in Hk. injection Hk as ->. simpl. by rewrite filter_cons_False.
  - simpl in *. rewrite !filter_cons. by rewrite (IH k).
Qed.

(** [dispose] leaves the other handlers as they are, in order. *)
Lemma dispose_handlers_others handler hs :
  filter (λ h, h ≠ handler) (dispose_handlers handler hs) =
  filter (λ h, h ≠ handler) hs.
Proof.
  unfold dispose_handlers. generalize (List.length hs) 0.
  intros visits. revert hs.
  induction visits as [|visits IH]; intros hs k; [done|]. simpl.
  destruct (hs !! k) as [h|] eqn:Hk; [|apply IH].
  destruct (Nat.eqb_spec h handler) as [->|Hne]; [|apply IH].
  rewrite IH. apply (filter_delete_skip _ _ _ handler Hk). by intros ?.
Qed.

(** [dispose] for a URI that has no entry and names no member of
    [Object.prototype] does nothing; for a URI that has an entry it only
    rewrites [handlers] of that entry. *)
Lemma dispose_frame st u handler :
  (cache st !! u = None → JS.inherited u = false →
   dispose st u handler = Returns st)
  ∧ (∀ l, cache st !! u = Some l →
       dispose st u handler =
         Returns
           (update l
              (λ e, set_handlers (dispose_handlers handler (handlers e)) e)
              st)).
Proof.
  split; [|apply dispose_known].
  intros Hu Hown. by rewrite (dispose_unknown _ _ _ Hu), Hown.
Qed.

End Properties.

(** ** The code on concrete inputs *)


(** Claim C1, on the code: two downloads in flight for one entry.  The
    handler of the first observer calls [bust] for its URI and then throws.
    When the check after the first download reports the file present,
    [notify] calls it: [bust] clears [path] and starts a second download,
    setting [task]; the exception reaches the [catch] of the chain of the
    first download, which sets [task] to [null] (and unlinks the file just
    verified).  The entry now has a download running and no [task], so the
    next [on] starts a third one beside it. *)
Theorem throwing_handler_doubles_fetch :
  let run_it := @run demo_rethrowing (@init demo_rethrowing) in
  let st3 :=
    run_it [On (demo_src "https://x/a.png") 1 None; Settle 0 true;
            Settle 0 true] in
  let st4 :=
    run_it [On (demo_src "https://x/a.png") 1 None; Settle 0 true;
            Settle 0 true; On (demo_src "https://x/a.png") 2 None] in
  (cache st3 !! "https://x/a.png"%string = Some 0
   ∧ task <$> heap st3 !! 0 = Some None
   ∧ inflight st3 0 = [1])
  ∧ (cache st4 !! "https://x/a.png"%string = Some 0
     ∧ task <$> heap st4 !! 0 = Some (Some 2)
     ∧ inflight st4 0 = [1; 2]
     ∧ downloads st4 =
         [(0, "https://x/a.png",
           "/c/react-native-img-cache/a000b000-c000-d000-e000-f000g000h000.png");
          (1, "https://x/a.png",
           "/c/react-native-img-cache/i000j000-k000-l000-m000-n000o000p000.png");
          (2, "https://x/a.png",
           "/c/react-native-img-cache/q000r000-s000-t000-u000-v000w000x000.png")]%string
     ∧ unlinked st4 =
         ["/c/react-native-img-cache/a000b000-c000-d000-e000-f000g000h000.png"%string]).
Proof. by vm_compute. Qed.

(** Claim C5, on the code: [dispose] on an observer list holding the
    handler twice in a row leaves one occurrence.  [forEach] moves on to the
    next index after [splice] has shifted the second occurrence into the
    index just visited. *)
Theorem dispose_skips_adjacent_duplicate :
  (∀ handler, dispose_handlers handler [handler; handler] = [handler])
  ∧ handlers <$>
      heap (demo_run [On (demo_src "https://x/a.png") 7 None;
                      On (demo_src "https://x/a.png") 7 None;
                      Dispose "https://x/a.png" 7]) !! 0
    = Some [7].
Proof.
  split; [|by vm_compute].
  intros handler. unfold dispose_handlers. simpl. by rewrite Nat.eqb_refl.
Qed.

(** Claim C6, on the code: with a dot inside the query string the
    extension of ["https://x/a.png?v=1.2"] is [".jpg"], not [".png"], because
    [lastIndexOf(".")] is taken over the query string as well; without a
    query string the extension starts at the first dot of the last segment,
    not the last.  With a query string that has no dot the extension is
    [".png"]. *)
Theorem extension_with_dot_in_query :
  getPath_ext "https://x/a.png?v=1.2" = ".jpg"%string
  ∧ getPath_ext "https://x/a.b.png" = ".b.png"%string
  ∧ getPath_ext "https://x/a.png?v=12" = ".png"%string.
Proof. by vm_compute. Qed.

(** Claim C7, on the code: [bust] for a URI that has no entry is not
    always a no-op.  ["constructor"] has no entry, but [this.cache[uri]]
    finds the member inherited from [Object.prototype], which passes the
    test [cache !== undefined && !cache.immutable], and the call throws;
    so do [dispose] and [on].  For a URI with no entry that names no such
    member the three calls do what they are meant to. *)
Theorem bust_throws_on_inherited_name :
  let st := demo_run [On (demo_src "https://x/a.png") 1 None] in
  (cache st !! "constructor"%string = None
   ∧ @bust demo st "constructor" = Throws st
   ∧ dispose st "constructor" 1 = Throws st
   ∧ @on demo st (demo_src "constructor") 1 None = Throws st)
  ∧ (cache st !! "https://x/none"%string = None
     ∧ @bust demo st "https://x/none" = Returns st
     ∧ dispose st "https://x/none" 1 = Returns st).
Proof. by vm_compute. Qed.

(** Claim C9, on the code: a handler is called with [undefined].  An
    existence check started by [on] is still unsettled when [bust] clears
    [path]; when the check then reports the file present, [notify] passes
    the cleared [path] to both handlers. *)
Theorem notify_passes_undefined :
  notified
    (demo_run [On (demo_src "https://x/a.png") 1 None; Settle 0 true;
               Settle 0 true; On (demo_src "https://x/a.png") 2 None;
               Bust "https://x/a.png"; Settle 0 true]) =
  [(1, Some "/c/react-native-img-cache/a000b000-c000-d000-e000-f000g000h000.png"%string);
   (1, None); (2, None)].
Proof. by vm_compute. Qed.

(** ** The theorems at concrete inputs *)



Lemma immutable_path_never_changes_witness :
  let evs := [On (demo_src demo_uri) 1 (Some true)] in
  let e :=
    {| source := demo_src demo_uri; handlers := [1];
       path := Some (@immutable_path demo demo_uri); immutable := true;
       task := None |} in
  heap (demo_run evs) !! 0 = Some e
  ∧ ∃ e',
      heap (@run demo (demo_run evs)
              [Settle 0 false; Bust demo_uri; Settle 0 true; Clear]) !! 0
        = Some e'
      ∧ path e' = path e.
Proof.
  intros evs e.
  assert (heap (demo_run evs) !! 0 = Some e) as Hl by by_running.
  split; [done|].
  destruct (@immutable_path_never_changes demo evs 0 e Hl eq_refl)
    as (_ & _ & Hlater).
  destruct (Hlater [Settle 0 false; Bust demo_uri; Settle 0 true; Clear])
    as (e' & ? & _ & _ & ?).
  by exists e'.
Defined.

Lemma download_failure_recovers_witness :
  (pending demo_busy !! 0 = Some (DownloadJob 0 demo_uri demo_dest 0)
   ∧ heap demo_busy !! 0 = Some demo_entry
   ∧ cache demo_busy !! demo_uri = Some 0)
  ∧ heap (@step demo demo_busy (Settle 0 false)) !! 0 =
      Some (set_task None demo_entry)
  ∧ io (@step demo demo_busy (Settle 0 false)) =
      io demo_busy ++ [FsUnlink demo_dest]
  ∧ downloads
      (@on demo (@step demo demo_busy (Settle 0 false)) (demo_src demo_uri)
         2 None)
    = downloads demo_busy ++ [(1, demo_uri, (@getPath demo 8 demo_uri false).1)]
  ∧ downloads (@bust demo (@step demo demo_busy (Settle 0 false)) demo_uri)
    = downloads demo_busy ++ [(1, demo_uri, (@getPath demo 8 demo_uri false).1)].
Proof.
  assert (pending demo_busy !! 0 = Some (DownloadJob 0 demo_uri demo_dest 0))
    as Hi by by_running.
  assert (heap demo_busy !! 0 = Some demo_entry) as Hl by by_running.
  destruct (@download_failure_recovers demo demo_busy 0 0 demo_uri
              demo_dest 0 demo_entry Hi Hl)
    as ((Htask & Hio & _) & Hon & Hbust).
  split; [by repeat split|]. split; [exact Htask|]. split; [exact Hio|].
  split.
  - apply (Hon (demo_src demo_uri) 2 None). by_running.
  - apply (Hbust demo_uri); by_running.
Defined.

Lemma cancel_frame_witness :
  (cache demo_busy !! demo_uri = Some 0
   ∧ heap demo_busy !! 0 = Some demo_entry)
  ∧ heap (cancel demo_busy demo_uri) = heap demo_busy
  ∧ io (cancel demo_busy demo_uri) = io demo_busy ++ [FsStopDownload 0]
  ∧ downloads (@get demo (cancel demo_busy demo_uri) demo_uri) =
      downloads demo_busy.
Proof.
  destruct (@cancel_frame demo demo_busy demo_uri)
    as ((_ & Hheap & _) & Hbusy).
  destruct (Hbusy 0 demo_entry 0) as (Hio & _ & _ & Hd & _);
    [by_running..|].
  by repeat split.
Defined.

(** * Further properties of the coordinator *)

Section Register.

Context `{Externals}.

Implicit Types (st : ImageCache) (e : CacheEntry) (u p : string).
Implicit Types (l i n job : nat) (pr : promise) (ev : event).

(** ** Unregistering *)

Lemma dispose_loop_beyond visits k handler hs :
  List.length hs ≤ k → dispose_loop visits k handler hs = hs.
Proof.
  revert k. induction visits as [|visits IH]; intros k Hk; [done|].
  cbn [dispose_loop]. destruct (hs !! k) as [h|] eqn:Hlk.
  { apply lookup_lt_Some in Hlk. unfold CacheHandler in *. lia. }
  apply IH. lia.
Qed.

Lemma dispose_loop_spaced visits handler pre suf :
  (∀ i, suf !! i = Some handler → suf !! S i ≠ Some handler) →
  List.length suf ≤ visits →
  dispose_loop visits (List.length pre) handler (pre ++ suf) =
    pre ++ filter (λ h, h ≠ handler) suf.
Proof.
  unfold CacheHandler in *. revert pre suf.
  induction visits as [|visits IH]; intros pre suf Hsp Hlen.
  { destruct suf; [done|simpl in Hlen; lia]. }
  destruct suf as [|x suf].
  { rewrite filter_nil, !app_nil_r. apply dispose_loop_beyond.
    unfold CacheHandler. lia. }
  assert (∀ i, suf !! i = Some handler → suf !! S i ≠ Some handler) as Hsp'
    by (intros i; exact (Hsp (S i))).
  assert (∀ y, S (List.length pre) = List.length (pre ++ [y])) as Hpre
    by (intros y; rewrite length_app; simpl; lia).
  cbn [dispose_loop]. unfold CacheHandler in *.
  replace ((pre ++ x :: suf) !! List.length pre) with (Some x)
    by (symmetry; by apply list_lookup_middle).
  destruct (Nat.eqb_spec x handler) as [->|Hne].
  - rewrite delete_middle, filter_cons_False by (by intros ?).
    destruct suf as [|y suf].
    { rewrite filter_nil, !app_nil_r. apply dispose_loop_beyond.
      unfold CacheHandler. lia. }
    assert (y ≠ handler) as Hy.
    { intros ->. by apply (Hsp 0). }
    rewrite filter_cons_True by done.
    replace (pre ++ y :: suf) with ((pre ++ [y]) ++ suf)
      by (by rewrite <- app_assoc).
    replace (pre ++ y :: filter (λ h, h ≠ handler) suf)
      with ((pre ++ [y]) ++ filter (λ h, h ≠ handler) suf)
      by (by rewrite <- app_assoc).
    rewrite (Hpre y).
    apply (IH (pre ++ [y]) suf);
      [intros i; exact (Hsp' (S i))|simpl in Hlen; lia].
  - rewrite filter_cons_True by done.
    replace (pre ++ x :: suf) with ((pre ++ [x]) ++ suf)
      by (by rewrite <- app_assoc).
    replace (pre ++ x :: filter (λ h, h ≠ handler) suf)
      with ((pre ++ [x]) ++ filter (λ h, h ≠ handler) suf)
      by (by rewrite <- app_assoc).
    rewrite (Hpre x).
    apply (IH (pre ++ [x]) suf); [done|simpl in Hlen; lia].
Qed.

(** X1.  When no two occurrences of the handler are next to each other in
    the observer list (in particular when it occurs once), the loop of
    [dispose] removes every occurrence and keeps the other handlers in
    order. *)
Theorem dispose_handlers_spaced handler hs :
  (∀ i, hs !! i = Some handler → hs !! S i ≠ Some handler) →
  dispose_handlers handler hs = filter (λ h, h ≠ handler) hs
  ∧ handler ∉ dispose_handlers handler hs.
Proof.
  intros Hsp.
  assert (dispose_handlers handler hs = filter (λ h, h ≠ handler) hs) as ->
    by apply (dispose_loop_spaced _ handler [] hs Hsp (le_n _)).
  split; [done|]. intros [Hne _]%list_elem_of_filter. by apply Hne.
Qed.

(** X2.  [dispose] touches nothing but the observer list of the entry of
    that URI: the index, the unsettled promises, the outgoing calls and the
    counters are as before (no download is started or stopped); every entry
    object keeps its [source], [path], [immutable] and [task]; the handlers
    other than the given one are kept, in order; entry objects of other
    URIs are untouched.  For a URI with no entry nothing changes at all:
    the call returns, except that it throws when the URI is the name of a
    member of [Object.prototype]. *)
Theorem dispose_touches_handlers_only st u handler :
  (cache (dispose st u handler) = cache st
   ∧ pending (dispose st u handler) = pending st
   ∧ io (dispose st u handler) = io st
   ∧ draws (dispose st u handler) = draws st
   ∧ jobs (dispose st u handler) = jobs st)
  ∧ (∀ l e,
       heap st !! l = Some e →
       ∃ e',
         heap (dispose st u handler) !! l = Some e'
         ∧ source e' = source e ∧ path e' = path e
         ∧ immutable e' = immutable e ∧ task e' = task e
         ∧ filter (λ h, h ≠ handler) (handlers e') =
             filter (λ h, h ≠ handler) (handlers e)
         ∧ (cache st !! u ≠ Some l → e' = e))
  ∧ (cache st !! u = None →
     dispose st u handler =
       if JS.inherited u then Throws st else Returns st).
Proof.
  destruct (cache st !! u) as [l0|] eqn:Hu.
  - rewrite (dispose_known _ _ _ _ Hu). cbn [state_of].
    split; [done|]. split; [|done]. intros l e Hl.
    destruct (decide (l0 = l)) as [->|Hne].
    + eexists. rewrite lookup_update, Hl. simpl. split; [done|].
      repeat split; try done. apply dispose_handlers_others.
    + exists e. rewrite lookup_update_ne by done. by repeat split.
  - assert (state_of (dispose st u handler) = st) as ->
      by (rewrite (dispose_unknown _ _ _ Hu); by destruct (JS.inherited u)).
    split; [done|]. split; [|by intros _; apply dispose_unknown].
    intros l e Hl. exists e. by repeat split.
Qed.

(** ** Notifications *)

Lemma notified_call_other c st :
  (∀ h a, c ≠ Handler h a) → notified (call c st) = notified st.
Proof.
  intros Hc. unfold notified, call. simpl. rewrite omap_app. simpl.
  destruct c; try by rewrite app_nil_r. by edestruct Hc.
Qed.

Lemma notified_download st l : notified (download st l) = notified st.
Proof.
  unfold download. repeat case_match; try done.
  unfold notified. simpl. by rewrite omap_app, app_nil_r.
Qed.

Lemma notified_get st u : notified (get st u) = notified st.
Proof.
  unfold get. repeat case_match; try done.
  - unfold notified. simpl. by rewrite omap_app, app_nil_r.
  - apply notified_download.
Qed.

Lemma notified_calls_handlers st hs a :
  notified (calls ((λ h, Handler h a) <$> hs) st) =
  notified st ++ ((λ h, (h, a)) <$> hs).
Proof.
  unfold notified. simpl. rewrite omap_app. f_equal.
  induction hs as [|h hs IH]; [done|]. simpl. f_equal. exact IH.
Qed.

Lemma notified_catch st l p : notified (download_catch st l p) = notified st.
Proof. unfold notified. simpl. by rewrite omap_app, app_nil_r. Qed.

Lemma notified_perform st c : notified (perform st c) = notified st.
Proof.
  destruct c as [src handler imm|u handler|u|u|]; cbn [perform].
  - destruct (on_state st src handler imm)
      as [->|[(l & _ & ->)|(_ & e & _ & _ & _ & _ & _ & ->)]]; [done|..];
      by rewrite notified_get.
  - by destruct (dispose_state st u handler) as [->|(l & _ & ->)].
  - destruct (bust_state st u) as [->|(l & e & _ & _ & _ & ->)]; [done|].
    by rewrite notified_get.
  - destruct (cancel_state st u) as [->|[job ->]]; [done|].
    by apply notified_call_other.
  - unfold clear. by rewrite notified_call_other.
Qed.

(** X3.  No handler runs inside [on], [dispose], [bust], [cancel] or
    [clear]: these calls return before any notification, also when the file
    of the entry is already there.  Handlers run only when a promise
    settles. *)
Theorem calls_never_notify st ev :
  (∀ i ok, ev ≠ Settle i ok) → notified (step st ev) = notified st.
Proof.
  intros Hev. destruct ev as [src handler imm|u handler|u|u| |i ok].
  - apply (notified_perform st (CallOn src handler imm)).
  - apply (notified_perform st (CallDispose u handler)).
  - apply (notified_perform st (CallBust u)).
  - apply (notified_perform st (CallCancel u)).
  - apply (notified_perform st CallClear).
  - by destruct (Hev i ok).
Qed.

(** X4.  A promise that settles when the index has no entry for its URI
    (after [clear]) notifies no one.  In particular, when the check after a
    download reports the file present but the URI is gone from the index,
    [notify] fails and the [catch] callback runs: [task] of the old entry
    object is cleared and the downloaded file is unlinked. *)
Theorem orphan_settles_silently st i ok pr :
  pending st !! i = Some pr → cache st !! subject pr = None →
  notified (step st (Settle i ok)) = notified st
  ∧ (∀ l u p,
       pr = ExistsOfDownload l u p → ok = true →
       step st (Settle i ok) =
         call (FsUnlink p)
           (update l (set_task None)
              (with_pending (delete i (pending st)) st))).
Proof.
  intros Hi Hu. rewrite (step_settle _ _ _ _ Hi).
  set (st1 := with_pending (delete i (pending st)) st).
  assert (notify st1 (subject pr) = Throws st1) as Hn
    by (by apply notify_orphan).
  split.
  - change (notified st) with (notified st1).
    destruct pr as [l u|l u p job|l u p], ok; simpl in *; try done.
    + by rewrite Hn.
    + apply notified_download.
    + unfold notified. simpl. by rewrite omap_app, app_nil_r.
    + apply notified_catch.
    + rewrite Hn. apply notified_catch.
  - intros l u p -> ->. simpl in *. by rewrite Hn.
Qed.

(** X5.  In every state reached from the initial one, when a promise of an
    immutable entry of the index settles and the handlers of that entry are
    quiet (they call nothing and do not throw, as [this.setState]), the
    handlers that run are exactly the handlers of that entry at that
    moment, in registration order, and each receives the path derived from
    the URI; they run when an existence check reports the file present,
    and in no other case. *)
Theorem immutable_observers_get_the_path evs i pr l e ok :
  let st := run init evs in
  pending st !! i = Some pr → cache st !! subject pr = Some l →
  heap st !! l = Some e → immutable e = true →
  (∀ h, h ∈ handlers e → ∀ a s, handler_body h a s = quiet) →
  notified (step st (Settle i ok)) =
    notified st ++
      match pr with
      | DownloadJob _ _ _ _ => []
      | _ =>
          if ok
          then (λ h, (h, Some (immutable_path (subject pr)))) <$> handlers e
          else []
      end.
Proof.
  intros st Hi Hu Hl Hm Hq. rewrite (step_settle _ _ _ _ Hi).
  set (st1 := with_pending (delete i (pending st)) st).
  destruct (wired_run init evs wired_init) as [Hw _].
  destruct (paths_ok_run init evs paths_ok_init) as (HA & _).
  destruct (Hw _ _ Hu) as (e' & Hl' & Huri).
  assert (e' = e) as -> by (unfold st in *; congruence).
  assert (path e = Some (immutable_path (subject pr))) as Hp
    by (rewrite <- Huri; by apply (HA l)).
  assert (notify st1 (subject pr) =
            Returns (calls ((λ h, Handler h (path e)) <$> handlers e) st1))
    as Hn by (by apply (notify_quiet st1 _ l e)).
  change (notified st) with (notified st1).
  destruct pr as [l0 u|l0 u p job|l0 u p], ok; simpl in *;
    rewrite ?app_nil_r; try done.
  - by rewrite Hn, <- Hp; simpl; rewrite notified_calls_handlers.
  - apply notified_download.
  - unfold notified. simpl. by rewrite omap_app, app_nil_r.
  - apply notified_catch.
  - by rewrite Hn, <- Hp, notified_calls_handlers.
Qed.

(** ** Handlers that call back during the fan-out *)

Lemma notified_handler st h a :
  notified (call (Handler h a) st) = notified st ++ [(h, a)].
Proof. unfold notified, call. simpl. by rewrite omap_app. Qed.

Lemma key_stays st c u :
  c ≠ CallClear → is_Some (cache st !! u) →
  is_Some (cache (perform st c) !! u).
Proof.
  intros Hc Hu.
  assert (∀ s u', cache (get s u') = cache s) as Hget
    by (intros s u'; by destruct (same_shape_get s u')).
  destruct c as [src handler imm|u' handler|u'|u'|]; cbn [perform];
    [| | | |done].
  - destruct (on_state st src handler imm)
      as [->|[(l & _ & ->)|(Hnew & e & _ & _ & _ & _ & _ & ->)]]; [done|..];
      rewrite Hget; [done|]. simpl.
    destruct (decide (uri src = u)) as [<-|Hne].
    + rewrite Hnew in Hu. by destruct Hu.
    + by rewrite lookup_insert_ne.
  - by destruct (dispose_state st u' handler) as [->|(l & _ & ->)].
  - destruct (bust_state st u') as [->|(l & e & _ & _ & _ & ->)]; [done|].
    by rewrite Hget.
  - by destruct (cancel_state st u') as [->|[job ->]].
Qed.

(** X22.  The fan-out tolerates handlers that call back into the
    coordinator.  When no handler throws and none calls [clear], [notify]
    for a URI of the index returns, whatever the handlers register,
    unregister, invalidate or cancel while it goes through the observer
    list. *)
Theorem fan_out_survives_reentrancy st u l e :
  no_handler_throws →
  (∀ h a s, CallClear ∉ requests (handler_body h a s)) →
  cache st !! u = Some l → heap st !! l = Some e →
  ∃ st', notify st u = Returns st'.
Proof.
  intros Hquiet Hclear Hu Hl.
  assert (is_Some (cache (notify st u) !! u)) as Hkey.
  { apply (preserved_by_notify (λ s, is_Some (cache s !! u))
             (λ c, c ≠ CallClear)); [|done| |by rewrite Hu].
    - intros h a s c Hc ->. by apply (Hclear h a s).
    - intros s c Hc. by apply key_stays. }
  destruct (notify st u) as [st'|st'] eqn:Hn; [by eauto|].
  apply (notify_throws st u st' Hquiet) in Hn.
  - cbn [state_of] in Hkey. rewrite Hn in Hkey. by destruct Hkey.
  - intros l' Hu'. assert (l' = l) as -> by congruence. by rewrite Hl.
Qed.




(** ** Registration *)

(** X6.  The first registration wins.  [on] for a URI that has an entry
    appends the handler to its observer list and leaves [source],
    [immutable] and [path] of the entry as they are, whatever request and
    flag the call carries; the index and the other entry objects are
    unchanged. *)
Theorem on_known_keeps_first_registration st src handler imm l e :
  cache st !! uri src = Some l → heap st !! l = Some e →
  let st' := on st src handler imm in
  cache st' = cache st
  ∧ (∃ e',
       heap st' !! l = Some e'
       ∧ handlers e' = handlers e ++ [handler]
       ∧ source e' = source e ∧ immutable e' = immutable e
       ∧ path e' = path e)
  ∧ (∀ l', l' ≠ l → heap st' !! l' = heap st !! l').
Proof.
  intros Hu Hl. cbn zeta. rewrite (on_known _ _ _ _ _ Hu). cbn [state_of].
  set (st1 := update l _ st).
  set (e1 := set_handlers (handlers e ++ [handler]) e).
  assert (heap st1 !! l = Some e1) as Hl1
    by (unfold st1; by rewrite lookup_update, Hl).
  assert (∀ l', l' ≠ l → heap st1 !! l' = heap st !! l') as Hother
    by (intros l' ?; by apply lookup_update_ne).
  assert (cache st1 = cache st) as Hc by done.
  assert (cache st1 !! uri src = Some l) as Hu1 by done.
  clearbody st1.
  destruct (JS.truthy (path e1)) eqn:Hp.
  { rewrite (get_truthy st1 _ l e1) by done. simpl. by eauto 10. }
  rewrite (get_falsy st1 _ l e1) by done.
  destruct (task e1) as [job|] eqn:Ht.
  { rewrite (download_busy st1 l e1 job) by done. by eauto 10. }
  rewrite (download_idle st1 l e1) by done. simpl. split; [done|]. split.
  - eexists. by rewrite list_lookup_alter_eq, Hl1.
  - intros l' Hne. rewrite list_lookup_alter_ne by done. by apply Hother.
Qed.

(** X7.  After [clear] a URI is registered from scratch: the next [on],
    for a URI that names no member of [Object.prototype], makes a new entry
    object whose observer list holds the new handler only and whose
    mutability is that of this call (for such a name it throws and
    registers nothing); the entry objects made before, which callbacks of
    older promises still hold, are left as they were.  [clear] itself
    settles or stops no promise: it only empties the index and unlinks the
    cache directory. *)
Theorem clear_then_on st src handler imm :
  (cache (clear st) = ∅ ∧ heap (clear st) = heap st
   ∧ pending (clear st) = pending st
   ∧ io (clear st) = io st ++ [FsUnlink BASE_DIR])
  ∧ if JS.inherited (uri src)
    then on (clear st) src handler imm = Throws (clear st)
    else
      ∃ st',
        on (clear st) src handler imm = Returns st'
        ∧ let l := List.length (heap st) in
          cache st' !! uri src = Some l
          ∧ (∃ e,
               heap st' !! l = Some e ∧ handlers e = [handler]
               ∧ source e = src
               ∧ immutable e = bool_decide (imm = Some true))
          ∧ (∀ l' e', heap st !! l' = Some e' → heap st' !! l' = Some e').
Proof.
  split; [done|].
  assert (cache (clear st) !! uri src = None) as Hnew by apply lookup_empty.
  destruct (JS.inherited (uri src)) eqn:Hown; [by apply on_inherited|].
  rewrite (on_new _ _ _ _ Hnew Hown). eexists. split; [done|]. cbn zeta.
  set (e := Build_CacheEntry src [handler] _ _ None).
  set (st1 := with_cache _ _).
  assert (cache st1 !! uri src = Some (List.length (heap st))) as Hu
    by apply lookup_insert_eq.
  assert (heap st1 !! List.length (heap st) = Some e) as Hl.
  { unfold st1. simpl. by rewrite lookup_app_r, Nat.sub_diag. }
  assert (∀ l' e', heap st !! l' = Some e' → heap st1 !! l' = Some e')
    as Hold by (intros l' e' ?; by apply lookup_app_l_Some).
  clearbody st1.
  destruct (JS.truthy (path e)) eqn:Hp.
  { rewrite (get_truthy st1 _ _ e) by done. simpl. by eauto 10. }
  rewrite (get_falsy st1 _ _ e) by done.
  rewrite (download_idle st1 _ e) by done. simpl. split; [done|]. split.
  - eexists. by rewrite list_lookup_alter_eq, Hl.
  - intros l' e' Hl'. rewrite list_lookup_alter_ne; [by apply Hold|].
    apply lookup_lt_Some in Hl'. lia.
Qed.

(** ** Where stored paths come from *)

Lemma sourced_mono h ps dl dl' :
  sourced h ps dl → (∀ x, x ∈ dl → x ∈ dl') → sourced h ps dl'.
Proof.
  intros (H1 & H2) Hsub. split.
  - intros l e p Hl Hp Hm. destruct (H1 l e p Hl Hp Hm) as [job ?]. eauto.
  - intros l u p job Hpr. destruct (H2 l u p job Hpr) as [? ?]. eauto.
Qed.

Lemma sourced_alter h ps dl l f :
  sourced h ps dl →
  (∀ e, h !! l = Some e →
     source (f e) = source e ∧ immutable (f e) = immutable e
     ∧ (∀ p, path (f e) = Some p → immutable e = false →
          ∃ job, (job, uri (source e), p) ∈ dl)) →
  sourced (alter f l h) ps dl.
Proof.
  intros (H1 & H2) Hf. split.
  - intros l' e' p. destruct (decide (l = l')) as [->|Hne].
    + rewrite list_lookup_alter_eq. destruct (h !! l') as [e|] eqn:Hl; [|done].
      intros [= <-]. destruct (Hf e eq_refl) as (-> & -> & Hp). apply Hp.
    + rewrite list_lookup_alter_ne by done. apply H1.
  - intros l' u p job Hpr. destruct (H2 l' u p job Hpr) as (? & e & Hl & Hu).
    split; [done|]. destruct (decide (l = l')) as [->|Hne].
    + exists (f e). rewrite list_lookup_alter_eq, Hl.
      destruct (Hf e Hl) as (-> & _). done.
    + exists e. by rewrite list_lookup_alter_ne.
Qed.

Lemma sourced_alter_keep h ps dl l f :
  sourced h ps dl →
  (∀ e, source (f e) = source e ∧ immutable (f e) = immutable e
        ∧ (path (f e) = path e ∨ path (f e) = None)) →
  sourced (alter f l h) ps dl.
Proof.
  intros Hok Hf. apply sourced_alter; [done|]. intros e Hl.
  destruct (Hf e) as (Hs & Hi & Hp). repeat split; try done.
  intros p Hfp Hm. destruct Hok as (Hpaths & _).
  destruct Hp as [Hp|Hp]; rewrite Hp in Hfp; [by apply (Hpaths l)|done].
Qed.

Lemma sourced_await h ps dl pr :
  sourced h ps dl →
  (∀ l u p job, pr = DownloadJob l u p job →
     (job, u, p) ∈ dl ∧ ∃ e, h !! l = Some e ∧ uri (source e) = u) →
  sourced h (ps ++ [pr]) dl.
Proof.
  intros (H1 & H2) Hpr. split; [done|].
  intros l u p job [?| <-%list_elem_of_singleton]%elem_of_app; eauto.
Qed.

Lemma sourced_settled h ps dl i pr :
  sourced h ps dl → ps !! i = Some pr → sourced h (pr :: delete i ps) dl.
Proof.
  intros (H1 & H2) Hi. apply list_elem_of_lookup_2 in Hi. split; [done|].
  intros l u p job [<-|?]%elem_of_cons; eauto using list_elem_of_delete_inv.
Qed.

Lemma sourced_tail h ps dl pr : sourced h (pr :: ps) dl → sourced h ps dl.
Proof.
  intros (H1 & H2). split; [done|]. intros l u p job Hpr.
  apply H2. by right.
Qed.

Lemma sourced_alloc h ps dl e :
  sourced h ps dl → (immutable e = false → path e = None) →
  sourced (h ++ [e]) ps dl.
Proof.
  intros (H1 & H2) He. split.
  - intros l e' p [Hl|[? Hl]]%lookup_app_Some; [by apply (H1 l)|].
    destruct (l - List.length h) as [|k]; [|by destruct k].
    simplify_eq/=. intros Hp Hm. rewrite He in Hp; done.
  - intros l u p job Hpr. destruct (H2 l u p job Hpr) as (? & e' & ? & ?).
    split; [done|]. exists e'. split; [by apply lookup_app_l_Some|done].
Qed.

Lemma sourced_download st l :
  sourced (heap st) (pending st) (downloads st) →
  sourced (heap (download st l)) (pending (download st l))
    (downloads (download st l)).
Proof.
  intros Hok. destruct (heap st !! l) as [e|] eqn:Hl;
    [|by unfold download; rewrite Hl].
  destruct (task e) as [job|] eqn:Ht;
    [by rewrite (download_busy st l e job)|].
  destruct (downloads_download st l e Hl Ht) as (Hd & _).
  rewrite Hd. rewrite (download_idle st l e) by done. cbn zeta. simpl.
  apply sourced_await.
  - apply sourced_alter_keep; [|by intros ?; repeat split; left].
    apply (sourced_mono _ _ (downloads st)); [done|].
    intros y ?. apply elem_of_app. by left.
  - intros l' u p job [= <- <- <- <-]. split.
    + apply elem_of_app. right. by apply list_elem_of_singleton.
    + exists (set_task (Some (jobs st)) e).
      by rewrite list_lookup_alter_eq, Hl.
Qed.

Lemma sourced_get st u :
  sourced (heap st) (pending st) (downloads st) →
  sourced (heap (get st u)) (pending (get st u)) (downloads (get st u)).
Proof.
  intros Hok. unfold get.
  destruct (cache st !! u) as [l|]; [|done].
  destruct (heap st !! l) as [e|] eqn:Hl; [|done].
  destruct (JS.truthy (path e)); [|by apply sourced_download].
  replace (downloads _) with (downloads st)
    by (symmetry; by apply (downloads_call_other _ st)).
  by apply sourced_await.
Qed.

Lemma downloads_handler st h a :
  downloads (call (Handler h a) st) = downloads st.
Proof. by apply downloads_call_other. Qed.

Lemma sourced_perform st c :
  sourced (heap st) (pending st) (downloads st) →
  sourced (heap (perform st c)) (pending (perform st c))
    (downloads (perform st c)).
Proof.
  intros Hok. destruct c as [src handler imm|u handler|u|u|]; cbn [perform].
  - destruct (on_state st src handler imm)
      as [->|[(l & _ & ->)|(_ & e & _ & _ & _ & Hi & Hp & ->)]]; [done|..];
      apply sourced_get; simpl.
    + apply sourced_alter_keep; [done|]. by intros ?; repeat split; left.
    + apply sourced_alloc; [done|]. rewrite Hi, Hp. by intros ->.
  - destruct (dispose_state st u handler) as [->|(l & _ & ->)]; [done|].
    apply sourced_alter_keep; [done|]. by intros ?; repeat split; left.
  - destruct (bust_state st u) as [->|(l & e & _ & _ & _ & ->)]; [done|].
    apply sourced_get. simpl. apply sourced_alter_keep; [done|].
    by intros ?; repeat split; right.
  - destruct (cancel_state st u) as [->|[job ->]]; [done|].
    by rewrite downloads_call_other.
  - unfold clear. by rewrite downloads_call_other.
Qed.

Lemma sourced_notify st u :
  sourced (heap st) (pending st) (downloads st) →
  sourced (heap (notify st u)) (pending (notify st u))
    (downloads (notify st u)).
Proof.
  apply (preserved_by_notify
           (λ s, sourced (heap s) (pending s) (downloads s)) (λ _, True));
    [done| |].
  - intros s h a Hs. by rewrite downloads_handler.
  - intros s c _. apply sourced_perform.
Qed.

Lemma sourced_settle st pr ok :
  sourced (heap st) (pr :: pending st) (downloads st) →
  sourced (heap (settle st pr ok)) (pending (settle st pr ok))
    (downloads (settle st pr ok)).
Proof.
  intros Hall. pose proof (sourced_tail _ _ _ _ Hall) as Hok.
  destruct pr as [l u|l u p job|l u p], ok; simpl; try done.
  - by apply sourced_notify.
  - by apply sourced_download.
  - replace (downloads _) with (downloads st); last first.
    { symmetry.
      by apply (downloads_call_other _ (update l _ (update l _ st))). }
    apply sourced_await; [|done].
    destruct Hall as (_ & H2).
    destruct (H2 l u p job) as (Hin & e & Hl & Hu); [by left|].
    apply sourced_alter.
    { apply sourced_alter_keep; [done|]. by intros ?; repeat split; left. }
    intros e'. rewrite list_lookup_alter_eq, Hl. intros [= <-].
    repeat split. simpl. intros p' [= <-] _. exists job. by rewrite Hu.
  - replace (downloads _) with (downloads st)
      by (symmetry; by apply (downloads_call_other _ (update l _ st))).
    apply sourced_alter_keep; [done|]. by intros ?; repeat split; left.
  - pose proof (sourced_notify st u Hok) as Hn.
    destruct (notify st u) as [st'|st']; [done|]. cbn [state_of] in Hn.
    replace (downloads _) with (downloads st')
      by (symmetry; by apply (downloads_call_other _ (update l _ st'))).
    apply sourced_alter_keep; [done|]. by intros ?; repeat split; left.
Qed.

Lemma sourced_step st ev :
  sourced (heap st) (pending st) (downloads st) →
  sourced (heap (step st ev)) (pending (step st ev)) (downloads (step st ev)).
Proof.
  intros Hok. destruct ev as [src handler imm|u handler|u|u| |i ok].
  - by apply (sourced_perform st (CallOn src handler imm)).
  - by apply (sourced_perform st (CallDispose u handler)).
  - by apply (sourced_perform st (CallBust u)).
  - by apply (sourced_perform st (CallCancel u)).
  - by apply (sourced_perform st CallClear).
  - simpl. destruct (pending st !! i) as [pr|] eqn:Hi; [|done].
    apply (sourced_settle (with_pending _ st)). simpl.
    by apply sourced_settled.
Qed.

Lemma sourced_run st evs :
  sourced (heap st) (pending st) (downloads st) →
  sourced (heap (run st evs)) (pending (run st evs)) (downloads (run st evs)).
Proof.
  revert st. induction evs as [|ev evs IH]; intros st Hok; [done|].
  apply IH. by apply sourced_step.
Qed.

(** X8.  In every state reached from the initial one, a path stored in an
    entry is either the path derived from the URI (immutable entry) or the
    destination of a download that the coordinator issued for the URI of
    that entry (any other entry): no path comes from anywhere else. *)
Theorem stored_path_provenance evs l e p :
  heap (run init evs) !! l = Some e → path e = Some p →
  if immutable e then p = immutable_path (uri (source e))
  else ∃ job, (job, uri (source e), p) ∈ downloads (run init evs).
Proof.
  intros Hl Hp. destruct (immutable e) eqn:Hm.
  - destruct (paths_ok_run init evs paths_ok_init) as (HA & _).
    specialize (HA l e Hl Hm). congruence.
  - assert (sourced (heap init) (pending init) (downloads init)) as Hinit.
    { split; [by intros [|?] ??|]. by intros ???? ?%elem_of_nil. }
    destruct (sourced_run init evs Hinit) as (H1 & _). by apply (H1 l).
Qed.

End Register.

(** ** The extension computed by [getPath] *)

Section Extension.

Local Open Scope Z_scope.

Implicit Types (s : string) (c : Ascii.ascii) (k found a b : Z).
Implicit Types (n m q : nat).

Lemma get_Some_lt s n c : String.get n s = Some c → (n < String.length s)%nat.
Proof.
  revert n. induction s as [|x s IH]; intros [|n]; simpl; try done.
  - lia.
  - intros ?%IH. lia.
Qed.

Lemma indexOf_from_spec c s k :
  (JS.indexOf_from c s k = -1 ∧ ∀ q, String.get q s ≠ Some c)
  ∨ ∃ n, JS.indexOf_from c s k = k + Z.of_nat n
         ∧ String.get n s = Some c.
Proof.
  revert k. induction s as [|x s IH]; intros k; simpl.
  { left. split; [done|]. by intros []. }
  destruct (Ascii.eqb_spec x c) as [->|Hne].
  { right. exists 0%nat. split; [lia|done]. }
  destruct (IH (k + 1)) as [[-> Hno]|(n & -> & Hn)].
  - left. split; [done|]. intros [|q]; simpl; [congruence|apply Hno].
  - right. exists (S n). split; [lia|done].
Qed.

Lemma lastIndexOf_from_spec c s k found :
  (JS.lastIndexOf_from c s k found = found ∧ ∀ q, String.get q s ≠ Some c)
  ∨ ∃ n, JS.lastIndexOf_from c s k found = k + Z.of_nat n
         ∧ String.get n s = Some c
         ∧ ∀ q, (n < q)%nat → String.get q s ≠ Some c.
Proof.
  revert k found. induction s as [|x s IH]; intros k found; simpl.
  { left. split; [done|]. by intros []. }
  destruct (IH (k + 1) (if Ascii.eqb x c then k else found))
    as [[-> Hno]|(n & -> & Hn & Hafter)].
  - destruct (Ascii.eqb_spec x c) as [->|Hne].
    + right. exists 0%nat. split; [lia|]. split; [done|].
      intros [|q] ?; [lia|apply Hno].
    + left. split; [done|]. intros [|q]; simpl; [congruence|apply Hno].
  - right. exists (S n). split; [lia|]. split; [done|].
    intros [|q] ?; [lia|]. apply Hafter. lia.
Qed.

(** What [substring] returns is a stretch of the string, starting at the
    smaller of the two clamped arguments. *)
Lemma substring_get s a b q :
  String.get q (JS.substring s a b) = None
  ∨ String.get q (JS.substring s a b) =
      String.get (q + Z.to_nat (Z.min (JS.clamp s a) (JS.clamp s b))) s.
Proof.
  unfold JS.substring. cbn zeta.
  set (lo := Z.min _ _). set (hi := Z.max _ _).
  destruct (decide (q < Z.to_nat (hi - lo))%nat).
  - right. by apply String.substring_correct1.
  - left. apply String.substring_correct2. lia.
Qed.

Lemma substring_from_head s n c :
  String.get n s = Some c →
  String.get 0 (JS.substring_from s (Z.of_nat n)) = Some c.
Proof.
  intros Hn. pose proof (get_Some_lt _ _ _ Hn) as Hlt.
  unfold JS.substring_from, JS.substring, JS.clamp, JS.len. cbn zeta.
  rewrite String.substring_correct1 by lia. simpl.
  replace (Z.to_nat _) with n by lia. done.
Qed.

Lemma getPath_ext_head uri :
  String.get 0 (getPath_ext uri) = Some "."%char.
Proof.
  unfold getPath_ext. cbn zeta.
  set (path := if (JS.indexOf _ "?"%char =? -1) then _ else _).
  unfold JS.indexOf at 1 2.
  destruct (indexOf_from_spec "."%char path 0) as [[-> _]|(n & -> & Hn)];
    [done|].
  destruct (Z.eqb_spec (0 + Z.of_nat n) (-1)); [lia|].
  by apply substring_from_head.
Qed.

(** X9.  The extension always begins with a dot: it is [".jpg"] or a
    stretch of the URI that starts at a dot. *)
Theorem getPath_ext_begins_with_dot uri :
  ∃ rest, getPath_ext uri = String "."%char rest.
Proof.
  pose proof (getPath_ext_head uri) as Hhead.
  destruct (getPath_ext uri) as [|x rest]; [done|].
  simpl in Hhead. injection Hhead as ->. by exists rest.
Qed.

(** After the first character, what follows the last ["/"] has no ["/"]. *)
Lemma last_segment_slash_free uri q :
  (1 ≤ q)%nat →
  String.get q (JS.substring_from uri (JS.lastIndexOf uri "/"%char))
    ≠ Some "/"%char.
Proof.
  intros Hq. unfold JS.substring_from.
  destruct (substring_get uri (JS.lastIndexOf uri "/"%char) (JS.len uri) q)
    as [-> | ->]; [done|].
  unfold JS.lastIndexOf.
  destruct (lastIndexOf_from_spec "/"%char uri 0 (-1))
    as [[-> Hno]|(n & -> & Hn & Hafter)]; [apply Hno|].
  apply Hafter. pose proof (get_Some_lt _ _ _ Hn).
  unfold JS.clamp, JS.len. lia.
Qed.

Lemma getPath_ext_tail_slash_free uri q :
  (1 ≤ q)%nat → String.get q (getPath_ext uri) ≠ Some "/"%char.
Proof.
  intros Hq. unfold getPath_ext. cbn zeta.
  set (seg := JS.substring_from uri _).
  assert (∀ q', (1 ≤ q')%nat → String.get q' seg ≠ Some "/"%char) as Hseg
    by apply last_segment_slash_free.
  set (path := if (JS.indexOf seg "?"%char =? -1) then _ else _).
  assert (∀ q', (1 ≤ q')%nat → String.get q' path ≠ Some "/"%char) as Hpath.
  { intros q' Hq'. unfold path. destruct (_ =? -1); [by apply Hseg|].
    destruct (substring_get seg (JS.lastIndexOf seg "."%char)
                (JS.indexOf seg "?"%char) q') as [-> | ->]; [done|].
    apply Hseg. lia. }
  clearbody path. destruct (JS.indexOf path "."%char =? -1).
  - by destruct q as [|[|[|[|q]]]]; [lia|..].
  - unfold JS.substring_from.
    destruct (substring_get path (JS.indexOf path "."%char) (JS.len path) q)
      as [-> | ->]; [done|].
    apply Hpath. lia.
Qed.

(** X10.  The extension never contains a ["/"], whatever the URI: the file
    name that [getPath] appends to the cache directory adds no further
    directory level through its extension. *)
Theorem getPath_ext_has_no_slash uri :
  JS.indexOf (getPath_ext uri) "/"%char = -1.
Proof.
  unfold JS.indexOf.
  destruct (indexOf_from_spec "/"%char (getPath_ext uri) 0)
    as [[-> _]|(n & _ & Hn)]; [done|].
  destruct n as [|n].
  - rewrite getPath_ext_head in Hn. by injection Hn.
  - by destruct (getPath_ext_tail_slash_free uri (S n)); [lia|].
Qed.

(** *** URIs of the usual shapes *)

Lemma indexOf_absent s c :
  JS.indexOf s c = -1 → ∀ q, String.get q s ≠ Some c.
Proof.
  unfold JS.indexOf. intros Hi.
  destruct (indexOf_from_spec c s 0) as [[_ ?]|(n & Hn & _)]; [done|lia].
Qed.

Lemma absent_cons c x s :
  (∀ q, String.get q (String x s) ≠ Some c) →
  x ≠ c ∧ ∀ q, String.get q s ≠ Some c.
Proof.
  intros Hno. split.
  - intros ->. by apply (Hno 0%nat).
  - intros q. apply (Hno (S q)).
Qed.

Lemma absent_push c x s :
  x ≠ c → (∀ q, String.get q s ≠ Some c) →
  ∀ q, String.get q (String x s) ≠ Some c.
Proof. intros Hx Hs [|q]; simpl; [congruence|apply Hs]. Qed.

Lemma absent_app c s1 s2 :
  (∀ q, String.get q s1 ≠ Some c) → (∀ q, String.get q s2 ≠ Some c) →
  ∀ q, String.get q (s1 +:+ s2) ≠ Some c.
Proof.
  intros H1 H2. induction s1 as [|x s1 IH]; [done|].
  destruct (absent_cons _ _ _ H1). simpl. apply absent_push; auto.
Qed.

Lemma length_append s1 s2 :
  JS.len (s1 +:+ s2) = JS.len s1 + JS.len s2.
Proof.
  assert (String.length (s1 +:+ s2) =
            (String.length s1 + String.length s2)%nat) as Hlen
    by (induction s1 as [|x s1 IH]; simpl; [done|by rewrite IH]).
  unfold JS.len. rewrite Hlen. lia.
Qed.

Lemma indexOf_from_absent c s k :
  (∀ q, String.get q s ≠ Some c) → JS.indexOf_from c s k = -1.
Proof.
  intros Hno.
  destruct (indexOf_from_spec c s k) as [[? _]|(n & _ & Hn)]; [done|].
  by destruct (Hno n).
Qed.

Lemma indexOf_from_app c s1 s2 k :
  (∀ q, String.get q s1 ≠ Some c) →
  JS.indexOf_from c (s1 +:+ s2) k = JS.indexOf_from c s2 (k + JS.len s1).
Proof.
  revert k. induction s1 as [|x s1 IH]; intros k Hno.
  { simpl. f_equal. unfold JS.len. simpl. lia. }
  destruct (absent_cons _ _ _ Hno) as [Hx Hs]. simpl.
  destruct (Ascii.eqb_spec x c); [done|]. rewrite IH by done.
  f_equal. unfold JS.len. simpl String.length. lia.
Qed.

Lemma lastIndexOf_from_absent c s k found :
  (∀ q, String.get q s ≠ Some c) → JS.lastIndexOf_from c s k found = found.
Proof.
  intros Hno.
  destruct (lastIndexOf_from_spec c s k found)
    as [[? _]|(n & _ & Hn & _)]; [done|].
  by destruct (Hno n).
Qed.

Lemma lastIndexOf_from_app c s1 s2 k found :
  JS.lastIndexOf_from c (s1 +:+ s2) k found =
  JS.lastIndexOf_from c s2 (k + JS.len s1) (JS.lastIndexOf_from c s1 k found).
Proof.
  revert k found. induction s1 as [|x s1 IH]; intros k found.
  { simpl. f_equal. unfold JS.len. simpl. lia. }
  simpl. rewrite IH. f_equal. unfold JS.len. simpl String.length. lia.
Qed.

Lemma substring_whole s : String.substring 0 (String.length s) s = s.
Proof. induction s as [|x s IH]; simpl; [done|by rewrite IH]. Qed.

Lemma substring_take s t :
  String.substring 0 (String.length s) (s +:+ t) = s.
Proof.
  induction s as [|x s IH]; simpl; [by destruct t|by rewrite IH].
Qed.

Lemma substring_drop s t m :
  String.substring (String.length s) m (s +:+ t) = String.substring 0 m t.
Proof. induction s as [|x s IH]; simpl; done. Qed.

(** [substring] from the end of a prefix gives the rest. *)
Lemma substring_from_app s t : JS.substring_from (s +:+ t) (JS.len s) = t.
Proof.
  unfold JS.substring_from, JS.substring, JS.clamp. cbn zeta.
  rewrite length_append. unfold JS.len.
  replace (Z.to_nat _) with (String.length s) by lia.
  replace (Z.to_nat _) with (String.length t) by lia.
  by rewrite substring_drop, substring_whole.
Qed.

(** [substring] between the ends of two prefixes gives the middle. *)
Lemma substring_middle s t r :
  JS.substring (s +:+ t +:+ r) (JS.len s) (JS.len s + JS.len t) = t.
Proof.
  unfold JS.substring, JS.clamp. cbn zeta.
  rewrite !length_append. unfold JS.len.
  replace (Z.to_nat _) with (String.length s) by lia.
  replace (Z.to_nat _) with (String.length t) by lia.
  by rewrite substring_drop, substring_take.
Qed.

(** The segment after the last ["/"]. *)
Lemma last_segment dir seg :
  (∀ q, String.get q seg ≠ Some "/"%char) →
  JS.substring_from (dir +:+ "/" +:+ seg)
    (JS.lastIndexOf (dir +:+ "/" +:+ seg) "/"%char) =
  String "/"%char seg.
Proof.
  intros Hseg. unfold JS.lastIndexOf.
  rewrite lastIndexOf_from_app. simpl.
  rewrite lastIndexOf_from_absent by done.
  replace (0 + JS.len dir) with (JS.len dir) by lia.
  apply substring_from_app.
Qed.

(** X11.  A URI whose last segment has a dot and no query string: the
    extension runs from the first dot of that segment to the end of the
    URI. *)
Theorem getPath_ext_without_query dir name rest :
  JS.indexOf name "/"%char = -1 → JS.indexOf name "?"%char = -1 →
  JS.indexOf name "."%char = -1 → JS.indexOf rest "/"%char = -1 →
  JS.indexOf rest "?"%char = -1 →
  getPath_ext (dir +:+ "/" +:+ name +:+ "." +:+ rest) = ("." +:+ rest)%string.
Proof.
  intros In1 In2 In3 Ir1 Ir2.
  pose proof (indexOf_absent _ _ In1) as Hn1.
  pose proof (indexOf_absent _ _ In2) as Hn2.
  pose proof (indexOf_absent _ _ In3) as Hn3.
  pose proof (indexOf_absent _ _ Ir1) as Hr1.
  pose proof (indexOf_absent _ _ Ir2) as Hr2.
  unfold getPath_ext. cbn zeta.
  rewrite (last_segment dir (name +:+ "." +:+ rest)); last first.
  { apply absent_app; [done|]. by apply absent_push. }
  set (seg := String "/"%char (name +:+ "." +:+ rest)).
  assert (JS.indexOf seg "?"%char = -1) as ->.
  { apply indexOf_from_absent. apply absent_push; [done|].
    apply absent_app; [done|]. by apply absent_push. }
  change (-1 =? -1) with true. cbv iota.
  assert (JS.indexOf seg "."%char = 1 + JS.len name) as ->.
  { unfold JS.indexOf, seg. simpl. rewrite indexOf_from_app by done.
    simpl. lia. }
  destruct (Z.eqb_spec (1 + JS.len name) (-1)) as [Heq|_];
    [unfold JS.len in Heq; lia|].
  change seg with (String "/"%char name +:+ "." +:+ rest).
  replace (1 + JS.len name) with (JS.len (String "/"%char name))
    by (unfold JS.len; simpl String.length; lia).
  apply substring_from_app.
Qed.

(** X12.  A URI whose last segment has a dot before its query string, and
    no dot and no ["/"] inside the query string: the extension runs from
    the last dot before the ["?"] up to the ["?"]. *)
Theorem getPath_ext_with_query dir name x query :
  JS.indexOf name "/"%char = -1 → JS.indexOf name "?"%char = -1 →
  JS.indexOf x "/"%char = -1 → JS.indexOf x "?"%char = -1 →
  JS.indexOf x "."%char = -1 →
  JS.indexOf query "/"%char = -1 → JS.indexOf query "."%char = -1 →
  getPath_ext (dir +:+ "/" +:+ name +:+ "." +:+ x +:+ "?" +:+ query) =
    ("." +:+ x)%string.
Proof.
  intros In1 In2 Ix1 Ix2 Ix3 Iq1 Iq3.
  pose proof (indexOf_absent _ _ In1) as Hn1.
  pose proof (indexOf_absent _ _ In2) as Hn2.
  pose proof (indexOf_absent _ _ Ix1) as Hx1.
  pose proof (indexOf_absent _ _ Ix2) as Hx2.
  pose proof (indexOf_absent _ _ Ix3) as Hx3.
  pose proof (indexOf_absent _ _ Iq1) as Hq1.
  pose proof (indexOf_absent _ _ Iq3) as Hq3.
  unfold getPath_ext. cbn zeta.
  rewrite (last_segment dir (name +:+ "." +:+ x +:+ "?" +:+ query));
    last first.
  { apply absent_app; [done|]. apply absent_push; [done|].
    apply absent_app; [done|]. by apply absent_push. }
  set (seg := String "/"%char (name +:+ "." +:+ x +:+ "?" +:+ query)).
  set (head := String "/"%char name).
  assert (seg = head +:+ ("." +:+ x) +:+ "?" +:+ query) as Hseg.
  { done. }
  assert (JS.indexOf seg "?"%char = JS.len head + JS.len ("." +:+ x))
    as Hquery.
  { unfold JS.indexOf. rewrite Hseg.
    rewrite indexOf_from_app by (by apply absent_push).
    rewrite indexOf_from_app by (by apply absent_push).
    simpl. lia. }
  assert (JS.lastIndexOf seg "."%char = JS.len head) as Hdot.
  { unfold JS.lastIndexOf. rewrite Hseg.
    rewrite lastIndexOf_from_app. simpl JS.lastIndexOf_from at 1.
    rewrite lastIndexOf_from_absent; [lia|].
    apply absent_app; [done|]. by apply absent_push. }
  rewrite Hquery, Hdot.
  destruct (Z.eqb_spec (JS.len head + JS.len ("." +:+ x)) (-1)) as [Heq|_];
    [unfold JS.len in Heq; lia|].
  rewrite Hseg, substring_middle.
  change (JS.indexOf ("." +:+ x) "."%char) with 0.
  change (0 =? -1) with false. cbv iota.
  apply (substring_from_app "" ("." +:+ x)).
Qed.

(** X13.  A URI whose last segment has no dot at all, with or without a
    query string: the extension is [".jpg"]. *)
Theorem getPath_ext_default dir seg :
  JS.indexOf seg "/"%char = -1 → JS.indexOf seg "."%char = -1 →
  getPath_ext (dir +:+ "/" +:+ seg) = ".jpg"%string.
Proof.
  intros Is1 Is2.
  pose proof (indexOf_absent _ _ Is1) as Hs1.
  pose proof (indexOf_absent _ _ Is2) as Hs2.
  unfold getPath_ext. cbn zeta. rewrite (last_segment dir seg) by done.
  set (path := if (JS.indexOf _ "?"%char =? -1) then _ else _).
  assert (∀ q, String.get q path ≠ Some "."%char) as Hpath.
  { assert (∀ q, String.get q (String "/"%char seg) ≠ Some "."%char) as Hall
      by (by apply absent_push).
    intros q. unfold path. destruct (_ =? -1); [apply Hall|].
    destruct (substring_get (String "/"%char seg)
                (JS.lastIndexOf (String "/"%char seg) "."%char)
                (JS.indexOf (String "/"%char seg) "?"%char) q)
      as [-> | ->]; [done|apply Hall]. }
  clearbody path. unfold JS.indexOf.
  by rewrite (indexOf_from_absent _ _ _ Hpath).
Qed.

End Extension.

(** * The component [BaseCachedImage] on top of the coordinator *)

Section Lifecycle.

Context `{Externals}.

Implicit Types (st : ImageCache) (e : CacheEntry) (u p : string).
Implicit Types (l i n job : nat) (pr : promise) (ev : event).
Implicit Types (hst : Host) (hev : host_event) (this : BaseCachedImage).
Implicit Types (handler h : CacheHandler) (hs : list CacheHandler).

(** ** Observer lists through the steps of the coordinator *)

Lemma keeps_handlers_refl st : keeps_handlers st st.
Proof. split; [done|]. eauto. Qed.

Lemma keeps_handlers_same st st' :
  cache st' = cache st → heap st' = heap st → keeps_handlers st st'.
Proof. intros Hc Hh. split; [done|]. rewrite Hh. eauto. Qed.

Lemma keeps_handlers_trans st1 st2 st3 :
  keeps_handlers st1 st2 → keeps_handlers st2 st3 → keeps_handlers st1 st3.
Proof.
  intros [Hc1 Hh1] [Hc2 Hh2]. split; [congruence|].
  intros l e3 (e2 & Hl2 & ->)%Hh2. apply (Hh1 l e2 Hl2).
Qed.

Lemma alter_lookup_back (f : CacheEntry → CacheEntry) l l' (hp : list CacheEntry) e' :
  alter f l hp !! l' = Some e' →
  ∃ e, hp !! l' = Some e ∧ e' = (if decide (l = l') then f e else e).
Proof.
  destruct (decide (l = l')) as [->|Hne].
  - rewrite list_lookup_alter_eq. destruct (hp !! l') as [e|]; [|done].
    intros [= <-]. eauto.
  - rewrite list_lookup_alter_ne by done. eauto.
Qed.

Lemma keeps_handlers_update st l f :
  (∀ e, handlers (f e) = handlers e) → keeps_handlers st (update l f st).
Proof.
  intros Hf. split; [done|]. intros l' e' (e & Hl & ->)%alter_lookup_back.
  exists e. split; [done|]. by destruct (decide _).
Qed.

Lemma keeps_handlers_download st l : keeps_handlers st (download st l).
Proof.
  unfold download. repeat case_match; try apply keeps_handlers_refl.
  split; [done|]. simpl. intros l' e' (e & Hl & ->)%alter_lookup_back.
  exists e. split; [done|]. by destruct (decide _).
Qed.

Lemma keeps_handlers_get st u : keeps_handlers st (get st u).
Proof.
  unfold get. repeat case_match; try apply keeps_handlers_refl.
  - split; [done|]. eauto.
  - apply keeps_handlers_download.
Qed.

(** ** Counting a handler in an observer list *)

Lemma occurrences_app h hs hs' :
  occurrences h (hs ++ hs') = occurrences h hs + occurrences h hs'.
Proof. unfold occurrences. by rewrite filter_app, length_app. Qed.

Lemma occurrences_absent h hs : h ∉ hs → occurrences h hs = 0.
Proof.
  unfold occurrences. induction hs as [|x hs IH]; [done|].
  intros [Hx Hhs]%not_elem_of_cons.
  rewrite filter_cons_False by congruence. by apply IH.
Qed.

Lemma occurrences_present h hs : h ∈ hs → 1 ≤ occurrences h hs.
Proof.
  unfold occurrences. induction hs as [|x hs IH]; [by intros ?%elem_of_nil|].
  intros [->|Hin]%elem_of_cons.
  - rewrite filter_cons_True by done. simpl. lia.
  - rewrite filter_cons. destruct (decide (x = h)); simpl; auto with lia.
Qed.

Lemma occurrences_filter_other h h' hs :
  h ≠ h' → occurrences h (filter (λ x, x ≠ h') hs) = occurrences h hs.
Proof.
  intros Hne. unfold occurrences. induction hs as [|x hs IH]; [done|].
  rewrite !filter_cons. destruct (decide (x ≠ h')) as [Hx|Hx].
  - rewrite filter_cons. destruct (decide (x = h)); simpl; by rewrite IH.
  - destruct (decide (x = h)); [|done]. destruct Hx. congruence.
Qed.

Lemma occurrences_filter_self h hs :
  occurrences h (filter (λ x, x ≠ h) hs) = 0.
Proof.
  apply occurrences_absent. intros [Hne _]%list_elem_of_filter.
  by apply Hne.
Qed.

Lemma at_most_once_spaced h hs :
  occurrences h hs ≤ 1 → ∀ i, hs !! i = Some h → hs !! S i ≠ Some h.
Proof.
  intros Hocc i Hi Hsi.
  rewrite <- (take_drop_middle hs i h Hi) in Hocc.
  rewrite (drop_S hs h (S i) Hsi) in Hocc.
  rewrite occurrences_app in Hocc. unfold occurrences at 2 in Hocc.
  rewrite !filter_cons_True in Hocc by done. simpl in Hocc. lia.
Qed.

Lemma dispose_loop_subset visits k handler hs x :
  x ∈ dispose_loop visits k handler hs → x ∈ hs.
Proof.
  revert k hs. induction visits as [|visits IH]; intros k hs; [done|].
  cbn [dispose_loop]. destruct (hs !! k) as [y|]; [|apply IH].
  destruct (y =? handler)%nat; [|apply IH].
  intros ?%IH. by eapply list_elem_of_delete_inv.
Qed.

(** What [dispose] for a handler does to the count of a handler, given that
    the latter is at most once in the list. *)
Lemma dispose_handlers_at_most_once h h' hs :
  occurrences h hs ≤ 1 →
  occurrences h (dispose_handlers h' hs) ≤ 1
  ∧ (h ∈ dispose_handlers h' hs → h ∈ hs ∧ h ≠ h').
Proof.
  intros Hocc. destruct (decide (h = h')) as [<-|Hne].
  - assert (dispose_handlers h hs = filter (λ x, x ≠ h) hs) as ->.
    { apply (dispose_loop_spaced _ h [] hs); [|done].
      by apply at_most_once_spaced. }
    rewrite occurrences_filter_self. split; [lia|].
    intros [Hne _]%list_elem_of_filter. by destruct Hne.
  - rewrite <- (occurrences_filter_other h h') by done.
    rewrite dispose_handlers_others, occurrences_filter_other by done.
    split; [done|]. intros Hin. split; [|done].
    by apply dispose_loop_subset in Hin.
Qed.

(** ** Observer lists after [dispose] and [on] *)

Lemma cache_dispose st u handler :
  cache (dispose st u handler) = cache st.
Proof. by destruct (dispose_state st u handler) as [->|(l & _ & ->)]. Qed.

Lemma dispose_back st u handler l0 e' :
  heap (dispose st u handler) !! l0 = Some e' →
  ∃ e, heap st !! l0 = Some e
       ∧ handlers e' =
           if decide (cache st !! u = Some l0)
           then dispose_handlers handler (handlers e) else handlers e.
Proof.
  destruct (cache st !! u) as [l|] eqn:Hu.
  - rewrite (dispose_known _ _ _ _ Hu). cbn [state_of].
    intros (e & Hl & ->)%alter_lookup_back. exists e. split; [done|].
    destruct (decide (l = l0)) as [->|Hne].
    + by rewrite decide_True.
    + rewrite decide_False; [done|congruence].
  - assert (state_of (dispose st u handler) = st) as ->
      by (rewrite (dispose_unknown _ _ _ Hu); by destruct (JS.inherited u)).
    intros Hl. exists e'. by rewrite decide_False.
Qed.

Lemma on_back st src handler imm u0 l0 e' :
  wired (cache st) (heap st) (pending st) →
  cache (on st src handler imm) !! u0 = Some l0 →
  heap (on st src handler imm) !! l0 = Some e' →
  (∃ e, cache st !! u0 = Some l0 ∧ heap st !! l0 = Some e
        ∧ handlers e' =
            if decide (u0 = uri src) then handlers e ++ [handler]
            else handlers e)
  ∨ (cache st !! uri src = None ∧ u0 = uri src ∧ handlers e' = [handler]).
Proof.
  intros Hw. destruct (cache st !! uri src) as [l|] eqn:Hu.
  - rewrite (on_known _ _ _ _ _ Hu). cbn [state_of].
    destruct (keeps_handlers_get
                (update l (λ e, set_handlers (handlers e ++ [handler]) e) st)
                (uri src)) as [-> Hback].
    intros Hu0 (e1 & Hl1 & ->)%Hback. revert Hu0 Hl1. simpl.
    intros Hu0 (e & Hl & ->)%alter_lookup_back. left. exists e.
    split; [done|]. split; [done|].
    destruct (decide (l = l0)) as [->|Hne].
    + destruct Hw as (H1 & _).
      destruct (H1 _ _ Hu) as (ea & Hla & <-).
      destruct (H1 _ _ Hu0) as (eb & Hlb & <-).
      assert (ea = eb) as -> by congruence. by rewrite decide_True.
    + rewrite decide_False; [done|]. intros ->. congruence.
  - destruct (JS.inherited (uri src)) eqn:Hin.
    { rewrite (on_inherited _ _ _ _ Hu Hin). cbn [state_of].
      intros Hu0 Hl0. left. exists e'. split; [done|]. split; [done|].
      rewrite decide_False; [done|]. intros ->. congruence. }
    rewrite (on_new _ _ _ _ Hu Hin). cbn [state_of].
    set (st1 := with_cache _ _).
    destruct (keeps_handlers_get st1 (uri src)) as [-> Hback].
    intros Hu0 (e1 & Hl1 & ->)%Hback. revert Hu0 Hl1. unfold st1. simpl.
    destruct (decide (uri src = u0)) as [<-|Hne].
    + rewrite lookup_insert_eq. intros [= <-].
      rewrite lookup_app_r, Nat.sub_diag by done. intros [= <-].
      by right.
    + rewrite lookup_insert_ne by done. intros Hu0.
      destruct Hw as (H1 & _). destruct (H1 _ _ Hu0) as (e0 & Hl & _).
      rewrite (lookup_app_l_Some _ _ _ _ Hl). intros [= <-]. left.
      exists e0. rewrite decide_False by done. done.
Qed.

(** ** Where a handler is registered *)

Lemma unregistered_registered h claim st :
  unregistered h st → registered_under h claim st.
Proof.
  intros Hun u l e Hu Hl. specialize (Hun u l e Hu Hl).
  rewrite occurrences_absent by done. split; [lia|done].
Qed.

Lemma registered_keeps_handlers h claim st st' :
  keeps_handlers st st' → registered_under h claim st →
  registered_under h claim st'.
Proof.
  intros [Hc Hback] Hreg u l e' Hu (e & Hl & ->)%Hback.
  rewrite Hc in Hu. by apply (Hreg u l e).
Qed.

Lemma unregistered_keeps_handlers h st st' :
  keeps_handlers st st' → unregistered h st → unregistered h st'.
Proof.
  intros [Hc Hback] Hun u l e' Hu (e & Hl & ->)%Hback.
  rewrite Hc in Hu. by apply (Hun u l e).
Qed.

Lemma registered_dispose h claim st u handler :
  registered_under h claim st →
  registered_under h claim (dispose st u handler).
Proof.
  intros Hreg u0 l0 e' Hu0 (e & Hl & ->)%dispose_back.
  rewrite cache_dispose in Hu0.
  destruct (Hreg u0 l0 e Hu0 Hl) as [Hocc Hin].
  destruct (decide _); [|done].
  destruct (dispose_handlers_at_most_once h handler _ Hocc) as [? Hsub].
  split; [done|]. intros [? _]%Hsub. auto.
Qed.

Lemma registered_on h claim st src handler imm :
  wired (cache st) (heap st) (pending st) → handler ≠ h →
  registered_under h claim st →
  registered_under h claim (on st src handler imm).
Proof.
  intros Hw Hne Hreg u0 l0 e' Hu0 Hl0.
  destruct (on_back st src handler imm u0 l0 e' Hw Hu0 Hl0)
    as [(e & Hu & Hl & ->)|(_ & _ & ->)].
  - destruct (Hreg u0 l0 e Hu Hl) as [Hocc Hin].
    destruct (decide _); [|done]. rewrite occurrences_app.
    rewrite (occurrences_absent h [handler])
      by (by intros ->%list_elem_of_singleton).
    split; [lia|].
    intros [?| ->%list_elem_of_singleton]%elem_of_app; [auto|done].
  - rewrite occurrences_absent
      by (by intros ->%list_elem_of_singleton).
    split; [lia|]. by intros ->%list_elem_of_singleton.
Qed.

(** A call of a public method that does not pass the handler to [on]
    registers it nowhere new. *)
Lemma registered_perform h claim st c :
  wired (cache st) (heap st) (pending st) → ¬ registers h c →
  registered_under h claim st → registered_under h claim (perform st c).
Proof.
  intros Hw Hc Hreg. destruct c as [src handler imm|u handler|u|u|];
    cbn [perform].
  - by apply registered_on.
  - by apply registered_dispose.
  - destruct (bust_state st u) as [->|(l & e & _ & _ & _ & ->)]; [done|].
    eapply registered_keeps_handlers; [|done].
    eapply keeps_handlers_trans; [|apply keeps_handlers_get].
    by apply keeps_handlers_update.
  - eapply registered_keeps_handlers; [|done].
    destruct (cancel_state st u) as [->|[job ->]];
      by apply keeps_handlers_same.
  - intros u l e Hu. simpl in Hu. by rewrite lookup_empty in Hu.
Qed.

(** The fan-out registers the handler nowhere new, when the body of no
    handler passes it to [on]. *)
Lemma registered_notify h claim st u :
  private h → wired (cache st) (heap st) (pending st) →
  registered_under h claim st →
  wired (cache (notify st u)) (heap (notify st u)) (pending (notify st u))
  ∧ registered_under h claim (notify st u).
Proof.
  intros Hpriv Hw Hreg.
  apply (preserved_by_notify
           (λ s, wired (cache s) (heap s) (pending s)
                 ∧ registered_under h claim s)
           (λ c, ¬ registers h c)); [done|done| |done].
  intros s c Hc [Hws Hregs].
  split; [by apply wired_perform|by apply registered_perform].
Qed.

Lemma keeps_handlers_catch st l p : keeps_handlers st (download_catch st l p).
Proof. by apply (keeps_handlers_update st l (set_task None)). Qed.

Lemma registered_settle h claim st pr ok :
  private h → wired (cache st) (heap st) (pending st) →
  registered_under h claim st → registered_under h claim (settle st pr ok).
Proof.
  intros Hpriv Hw Hreg.
  destruct pr as [l u|l u p job|l u p], ok; simpl; try done.
  - by apply registered_notify.
  - eapply registered_keeps_handlers; [apply keeps_handlers_download|done].
  - eapply registered_keeps_handlers; [|done].
    eapply keeps_handlers_trans;
      [apply (keeps_handlers_update st l (set_task None))|]; [done|].
    by apply (keeps_handlers_update _ l (set_path (Some p))).
  - eapply registered_keeps_handlers; [apply keeps_handlers_catch|done].
  - destruct (registered_notify h claim st u Hpriv Hw Hreg) as [_ Hn].
    destruct (notify st u) as [st'|st']; [done|]. cbn [state_of] in Hn.
    eapply registered_keeps_handlers; [apply keeps_handlers_catch|done].
Qed.

(** An event of the coordinator that does not pass the handler to [on]
    registers it nowhere new. *)
Lemma registered_step h claim st ev :
  wired (cache st) (heap st) (pending st) →
  keeps_private h (Outside ev) → registered_under h claim st →
  registered_under h claim (step st ev).
Proof.
  intros Hw Hev Hreg.
  destruct ev as [src handler imm|u handler|u|u| |i ok].
  - apply (registered_perform h claim st (CallOn src handler imm));
      [done| |done]. exact Hev.
  - apply (registered_perform h claim st (CallDispose u handler)); [done|by intros []|done].
  - apply (registered_perform h claim st (CallBust u)); [done|by intros []|done].
  - apply (registered_perform h claim st (CallCancel u)); [done|by intros []|done].
  - apply (registered_perform h claim st CallClear); [done|by intros []|done].
  - simpl. destruct (pending st !! i) as [pr|]; [|done].
    apply registered_settle; [done|by apply wired_delete|done].
Qed.

(** [dispose] with the URI the handler is registered under takes it out
    of every observer list of the index. *)
Lemma dispose_own h st u :
  registered_under h (Some u) st → unregistered h (dispose st u h).
Proof.
  intros Hreg u0 l0 e' Hu0 (e & Hl & ->)%dispose_back.
  rewrite cache_dispose in Hu0.
  destruct (Hreg u0 l0 e Hu0 Hl) as [Hocc Hin].
  destruct (decide _) as [Hu|Hu].
  - destruct (dispose_handlers_at_most_once h h _ Hocc) as [_ Hsub].
    by intros [_ ?]%Hsub.
  - intros [= ->]%Hin. congruence.
Qed.

Lemma registered_none h st : registered_under h None st → unregistered h st.
Proof.
  intros Hreg u l e Hu Hl Hin. by destruct (Hreg u l e Hu Hl) as [_ ?%(λ f, f Hin)].
Qed.

(** [on] with a handler that is in no observer list registers it once,
    under the URI of the request. *)
Lemma on_own h st src imm :
  wired (cache st) (heap st) (pending st) → unregistered h st →
  registered_under h (Some (uri src)) (on st src h imm).
Proof.
  intros Hw Hun u0 l0 e' Hu0 Hl0.
  destruct (on_back st src h imm u0 l0 e' Hw Hu0 Hl0)
    as [(e & Hu & Hl & ->)|(_ & -> & ->)].
  - specialize (Hun u0 l0 e Hu Hl).
    destruct (decide _) as [->|?];
      [|rewrite occurrences_absent by done; split; [lia|done]].
    rewrite occurrences_app, occurrences_absent by done.
    split; [|done]. unfold occurrences.
    rewrite filter_cons_True by done. simpl. lia.
  - split; [|done]. unfold occurrences.
    rewrite filter_cons_True by done. simpl. lia.
Qed.

(** ** The lifecycle methods *)

Lemma observed_truthy source src :
  observed source = Some src → uri src ≠ ""%string.
Proof.
  destruct source as [n|s0|srcs]; simpl; try done.
  destruct s0 as [[[|a u]|] m hd]; simpl; try done. by intros [= <-].
Qed.

Lemma instance_put_eq hst handler r : instance (put hst handler r) handler = r.1.
Proof. unfold instance, put. simpl. by rewrite lookup_insert_eq. Qed.

Lemma instance_put_ne hst handler h r :
  handler ≠ h → instance (put hst handler r) h = instance hst h.
Proof. intros Hne. unfold instance, put. simpl. by rewrite lookup_insert_ne. Qed.

Lemma deliver_other cs (m : gmap CacheHandler BaseCachedImage) h :
  Forall (λ c, c.1 ≠ h) cs → deliver cs m !! h = m !! h.
Proof.
  unfold deliver. intros Hcs. revert m.
  induction Hcs as [|c cs Hc _ IH]; intros m; [done|].
  simpl. rewrite IH. by rewrite lookup_insert_ne.
Qed.

Lemma deliver_this_uri cs (m : gmap CacheHandler BaseCachedImage) h :
  this_uri (default constructed (deliver cs m !! h)) =
  this_uri (default constructed (m !! h)).
Proof.
  unfold deliver. revert m. induction cs as [|c cs IH]; intros m; [done|].
  simpl. rewrite IH. destruct (decide (c.1 = h)) as [->|Hne].
  - by rewrite lookup_insert_eq.
  - by rewrite lookup_insert_ne.
Qed.

Lemma wired_dispose st u handler :
  wired (cache st) (heap st) (pending st) →
  wired (cache (dispose st u handler)) (heap (dispose st u handler))
    (pending (dispose st u handler)).
Proof. apply (wired_perform st (CallDispose u handler)). Qed.

Lemma wired_on st src handler imm :
  wired (cache st) (heap st) (pending st) →
  wired (cache (on st src handler imm)) (heap (on st src handler imm))
    (pending (on st src handler imm)).
Proof. apply (wired_perform st (CallOn src handler imm)). Qed.

Lemma wired_component_dispose this handler st :
  wired (cache st) (heap st) (pending st) →
  let st' := state_of (component_dispose this handler st) in
  wired (cache st') (heap st') (pending st').
Proof.
  intros Hw. unfold component_dispose.
  destruct (JS.truthy _); [by apply wired_dispose|done].
Qed.

Lemma registered_component_dispose h claim this handler st :
  registered_under h claim st →
  registered_under h claim (component_dispose this handler st).
Proof.
  intros Hreg. unfold component_dispose.
  destruct (JS.truthy _); [by apply registered_dispose|done].
Qed.

(** What [observe] leaves: nothing new, or what [on] leaves after
    [this.dispose()] returned with [this.uri] reassigned, or what
    [this.dispose()] leaves when it throws. *)
Lemma observe_cases this handler st src mutable :
  observe this handler st src mutable = (this, st)
  ∨ (∃ st',
       component_dispose this handler st = Throws st'
       ∧ observe this handler st src mutable = (this, st'))
  ∨ (∃ st',
       component_dispose this handler st = Returns st'
       ∧ this_uri this ≠ Some (uri src)
       ∧ observe this handler st src mutable =
           ({| this_uri := Some (uri src); state_path := state_path this |},
            state_of (on st' src handler (Some (negb mutable))))).
Proof.
  unfold observe. case_bool_decide as Hsame; [by left|]. right.
  destruct (component_dispose this handler st) as [st'|st'];
    [right|left]; by exists st'.
Qed.

Lemma wired_observe this handler st src mutable :
  wired (cache st) (heap st) (pending st) →
  let st' := (observe this handler st src mutable).2 in
  wired (cache st') (heap st') (pending st').
Proof.
  intros Hw. cbn zeta.
  pose proof (wired_component_dispose this handler st Hw) as Hd.
  destruct (observe_cases this handler st src mutable)
    as [->|[(st' & Hst' & ->)|(st' & Hst' & _ & ->)]]; [done|..];
    rewrite Hst' in Hd; cbn [state_of] in Hd; [done|].
  by apply wired_on.
Qed.

(** A lifecycle method of another instance registers the handler nowhere
    new. *)
Lemma observe_other h claim this handler st src mutable :
  handler ≠ h → wired (cache st) (heap st) (pending st) →
  registered_under h claim st →
  registered_under h claim (observe this handler st src mutable).2.
Proof.
  intros Hne Hw Hreg.
  pose proof (wired_component_dispose this handler st Hw) as Hwd.
  pose proof (registered_component_dispose h claim this handler st Hreg)
    as Hd.
  destruct (observe_cases this handler st src mutable)
    as [->|[(st' & Hst' & ->)|(st' & Hst' & _ & ->)]]; [done|..];
    rewrite Hst' in Hd, Hwd; cbn [state_of] in Hd, Hwd; [done|].
  by apply registered_on.
Qed.

Lemma component_dispose_own h this st :
  registered_under h (this_uri this) st → this_uri this ≠ Some ""%string →
  unregistered h (component_dispose this h st).
Proof.
  intros Hreg Hne. unfold component_dispose.
  destruct (this_uri this) as [[|a u]|] eqn:Hu; simpl; try done.
  - by apply dispose_own.
  - by apply registered_none.
Qed.

(** [observe] of the instance itself leaves its handler registered under
    [this.uri] at most: moved to the new URI, or, when [this.dispose()]
    throws, where it was. *)
Lemma observe_own h this st src mutable :
  wired (cache st) (heap st) (pending st) →
  registered_under h (this_uri this) st →
  this_uri this ≠ Some ""%string → uri src ≠ ""%string →
  let r := observe this h st src mutable in
  registered_under h (this_uri r.1) r.2 ∧ this_uri r.1 ≠ Some ""%string.
Proof.
  intros Hw Hreg Hne Hsrc. cbn zeta.
  pose proof (wired_component_dispose this h st Hw) as Hwd.
  pose proof (component_dispose_own h this st Hreg Hne) as Hun.
  pose proof (registered_component_dispose h _ this h st Hreg) as Hd.
  destruct (observe_cases this h st src mutable)
    as [->|[(st' & Hst' & ->)|(st' & Hst' & _ & ->)]]; [done|..];
    rewrite Hst' in Hd, Hwd, Hun; cbn [state_of] in Hd, Hwd, Hun; [done|].
  split; [|simpl; congruence]. by apply on_own.
Qed.

Lemma disciplined_observing h hst handler this src mutable :
  disciplined h hst → this_uri this = this_uri (instance hst handler) →
  uri src ≠ ""%string →
  disciplined h
    (put hst handler (observe this handler (coordinator hst) src mutable)).
Proof.
  intros (Hw & Hreg & Hne) Hthis Hsrc. split; [by apply wired_observe|].
  destruct (decide (handler = h)) as [->|Hother].
  - rewrite instance_put_eq. simpl. apply observe_own; try done.
    + by rewrite Hthis.
    + by rewrite Hthis.
  - rewrite instance_put_ne by done. simpl. split; [|done].
    by apply observe_other.
Qed.

Lemma disciplined_idle h hst handler this :
  disciplined h hst → this_uri this = this_uri (instance hst handler) →
  disciplined h (put hst handler (this, coordinator hst)).
Proof.
  intros (Hw & Hreg & Hne) Hthis. split; [done|].
  destruct (decide (handler = h)) as [->|Hother].
  - rewrite instance_put_eq. simpl. by rewrite Hthis.
  - by rewrite instance_put_ne.
Qed.

Lemma disciplined_step h hst hev :
  disciplined h hst → keeps_private h hev → disciplined h (host_step hst hev).
Proof.
  intros Hd Hev. destruct hev as [handler props|handler props|handler|ev].
  - simpl. unfold componentWillMount.
    destruct (checkSource _) as [source|]; [|done]. cbn zeta.
    destruct (observed source) as [src|] eqn:Hsrc.
    + apply disciplined_observing; [done|done|by eapply observed_truthy].
    + by apply disciplined_idle.
  - simpl. unfold componentWillReceiveProps.
    destruct (checkSource _) as [source|]; [|done].
    destruct (observed source) as [src|] eqn:Hsrc.
    + apply disciplined_observing; [done|done|by eapply observed_truthy].
    + by apply disciplined_idle.
  - destruct Hd as (Hw & Hreg & Hne). simpl.
    split; [by apply wired_component_dispose|]. split; [|done].
    change (instance _ h) with (instance hst h).
    destruct (decide (handler = h)) as [->|Hother].
    + apply unregistered_registered. by apply component_dispose_own.
    + by apply registered_component_dispose.
  - destruct Hd as (Hw & Hreg & Hne).
    assert (this_uri (instance (host_step hst (Outside ev)) h) =
              this_uri (instance hst h)) as Huri
      by apply deliver_this_uri.
    split; [by apply wired_step|]. rewrite Huri. split; [|done].
    by apply registered_step.
Qed.

Lemma disciplined_run h hst hevs :
  disciplined h hst → Forall (keeps_private h) hevs →
  disciplined h (host_run hst hevs).
Proof.
  intros Hd Hevs. revert hst Hd.
  induction Hevs as [|hev hevs Hev _ IH]; intros hst Hd; [done|].
  apply IH. by apply disciplined_step.
Qed.

Lemma disciplined_init h : disciplined h host_init.
Proof.
  destruct coherent_init as [Hw _]. split; [done|]. split; [|done].
  intros u l e Hu. simpl in Hu. by rewrite lookup_empty in Hu.
Qed.

(** X14.  However instances are mounted, given new props and unmounted,
    and whatever the coordinator does in between, the handler of an
    instance is in at most one observer list of the index, at most once,
    and that list is the one of the URI the instance holds in [this.uri]
    (provided no other code passes this handler to [on]). *)
Theorem instance_registered_once hevs h :
  Forall (keeps_private h) hevs →
  let hst := host_run host_init hevs in
  ∀ u l e,
    cache (coordinator hst) !! u = Some l →
    heap (coordinator hst) !! l = Some e →
    occurrences h (handlers e) ≤ 1
    ∧ (h ∈ handlers e → this_uri (instance hst h) = Some u).
Proof.
  intros Hevs. by destruct (disciplined_run h host_init hevs
                              (disciplined_init h) Hevs) as (_ & Hreg & _).
Qed.

(** ** After [componentWillUnmount] *)

Lemma notified_on st src handler imm :
  notified (on st src handler imm) = notified st.
Proof. apply (notified_perform st (CallOn src handler imm)). Qed.

Lemma notified_dispose st u handler :
  notified (dispose st u handler) = notified st.
Proof. apply (notified_perform st (CallDispose u handler)). Qed.

Lemma notified_component_dispose this handler st :
  notified (component_dispose this handler st) = notified st.
Proof.
  unfold component_dispose. destruct (JS.truthy _); [|done].
  apply notified_dispose.
Qed.

Lemma notified_observe this handler st src mutable :
  notified (observe this handler st src mutable).2 = notified st.
Proof.
  pose proof (notified_component_dispose this handler st) as Hd.
  destruct (observe_cases this handler st src mutable)
    as [->|[(st' & Hst' & ->)|(st' & Hst' & _ & ->)]]; [done|..];
    rewrite Hst' in Hd; cbn [state_of] in Hd; [done|].
  simpl. by rewrite notified_on.
Qed.

(** A call that does not pass the handler to [on] puts it into no observer
    list, be it one of the index or one that callbacks still hold. *)
Lemma absent_perform h l st c :
  ¬ registers h c →
  (∀ e, heap st !! l = Some e → h ∉ handlers e) →
  ∀ e', heap (perform st c) !! l = Some e' → h ∉ handlers e'.
Proof.
  intros Hc Habs e'.
  assert (∀ s u, (∀ e, heap s !! l = Some e → h ∉ handlers e) →
            heap (get s u) !! l = Some e' → h ∉ handlers e') as Hget.
  { intros s u Hs. destruct (keeps_handlers_get s u) as [_ Hback].
    intros (e & Hl & ->)%Hback. by apply Hs. }
  destruct c as [src handler imm|u handler|u|u|]; cbn [perform].
  - assert (handler ≠ h) as Hne by (intros ->; by apply Hc).
    destruct (on_state st src handler imm)
      as [->|[(l1 & _ & ->)|(_ & e & _ & Hh & _ & _ & _ & ->)]];
      [apply Habs|..]; apply Hget; simpl.
    + intros e1 (e0 & Hl & ->)%alter_lookup_back.
      destruct (decide _); [|by apply Habs]. simpl.
      intros [?| ->%list_elem_of_singleton]%elem_of_app; [|done].
      by apply (Habs e0).
    + intros e1 [Hl|[_ Hl]]%lookup_app_Some; [by apply Habs|].
      destruct (l - List.length (heap st)) as [|k]; [|by destruct k].
      simplify_eq/=. rewrite Hh. by intros ->%list_elem_of_singleton.
  - intros (e & Hl & ->)%dispose_back. specialize (Habs e Hl).
    destruct (decide _); [|done].
    intros Hin. apply Habs. by eapply dispose_loop_subset.
  - destruct (bust_state st u) as [->|(l1 & e & _ & _ & _ & ->)];
      [apply Habs|]. apply Hget. simpl.
    intros e1 (e0 & Hl & ->)%alter_lookup_back.
    destruct (decide _); simpl; by apply (Habs e0).
  - by destruct (cancel_state st u) as [->|[job ->]]; apply Habs.
  - apply Habs.
Qed.

(** The handlers that the fan-out calls are handlers of the observer list
    it iterates: a handler that is in no observer list of the index, and
    that the body of no handler passes to [on], is not called. *)
Lemma notify_unregistered h st u :
  private h → wired (cache st) (heap st) (pending st) →
  unregistered h st →
  ∃ cs, notified (notify st u) = notified st ++ cs
        ∧ Forall (λ c, c.1 ≠ h) cs.
Proof.
  intros Hpriv Hw Hun.
  destruct (cache st !! u) as [l0|] eqn:Hu; last first.
  { rewrite (notify_orphan _ _ Hu). exists []. by rewrite app_nil_r. }
  set (P := λ s,
    wired (cache s) (heap s) (pending s) ∧ unregistered h s
    ∧ (∀ e, heap s !! l0 = Some e → h ∉ handlers e)
    ∧ ∃ cs, notified s = notified st ++ cs ∧ Forall (λ c, c.1 ≠ h) cs).
  assert (P (notify st u)) as (_ & _ & _ & Hcs); [|done].
  apply (invariant_notify P (λ c, ¬ registers h c) st u l0); try done.
  - intros s h' a e k (Hws & Huns & Habs & cs & Hcs & Hall) Hl Hk.
    split; [done|]. split; [done|]. split; [done|].
    exists (cs ++ [(h', a)]). rewrite notified_handler, Hcs, app_assoc.
    split; [done|]. apply Forall_app. split; [done|].
    apply Forall_singleton. simpl. intros ->.
    apply (Habs e Hl). by eapply list_elem_of_lookup_2.
  - intros s c Hc (Hws & Huns & Habs & cs & Hcs & Hall).
    split; [by apply wired_perform|]. split.
    { apply registered_none, registered_perform; try done.
      by apply unregistered_registered. }
    split; [by apply absent_perform|].
    exists cs. by rewrite notified_perform.
  - split; [done|]. split; [done|]. split.
    + intros e Hl. by apply (Hun u l0 e).
    + exists []. by rewrite app_nil_r.
Qed.

(** The handlers a step of the coordinator calls are handlers of an
    observer list of the index. *)
Lemma notified_step_unregistered h st ev :
  wired (cache st) (heap st) (pending st) →
  keeps_private h (Outside ev) → unregistered h st →
  ∃ cs, notified (step st ev) = notified st ++ cs
        ∧ Forall (λ c, c.1 ≠ h) cs.
Proof.
  intros Hw Hev Hun.
  assert (∀ s, notified s = notified st →
            ∃ cs, notified s = notified st ++ cs ∧ Forall (λ c, c.1 ≠ h) cs)
    as Hquiet.
  { intros s ->. exists []. by rewrite app_nil_r. }
  destruct ev as [src handler imm|u handler|u|u| |i ok].
  - apply Hquiet, (notified_perform st (CallOn src handler imm)).
  - apply Hquiet, (notified_perform st (CallDispose u handler)).
  - apply Hquiet, (notified_perform st (CallBust u)).
  - apply Hquiet, (notified_perform st (CallCancel u)).
  - apply Hquiet, (notified_perform st CallClear).
  - simpl. destruct (pending st !! i) as [pr|]; [|by apply Hquiet].
    set (st1 := with_pending _ st).
    assert (∀ u, ∃ cs,
              notified (notify st1 u) = notified st ++ cs
              ∧ Forall (λ c, c.1 ≠ h) cs) as Hnotify.
    { intros u. apply (notify_unregistered h st1 u); try done.
      by apply wired_delete. }
    destruct pr as [l u|l u p job|l u p], ok; simpl.
    + apply Hnotify.
    + apply Hquiet. apply (notified_download st1).
    + apply Hquiet. unfold notified. simpl. by rewrite omap_app, app_nil_r.
    + apply Hquiet. apply (notified_catch st1).
    + specialize (Hnotify u). destruct (notify st1 u) as [st2|st2]; [done|].
      cbn [state_of] in Hnotify. by rewrite notified_catch.
    + by apply Hquiet.
Qed.

Lemma leaves_alone_private h hev : leaves_alone h hev → keeps_private h hev.
Proof. by destruct hev as [| | |[]]. Qed.

Lemma registered_host_step_other h claim hst hev :
  wired (cache (coordinator hst)) (heap (coordinator hst))
    (pending (coordinator hst)) →
  leaves_alone h hev → registered_under h claim (coordinator hst) →
  registered_under h claim (coordinator (host_step hst hev))
  ∧ wired (cache (coordinator (host_step hst hev)))
      (heap (coordinator (host_step hst hev)))
      (pending (coordinator (host_step hst hev))).
Proof.
  intros Hw Hev Hreg.
  destruct hev as [handler props|handler props|handler|ev]; simpl in *.
  - unfold componentWillMount.
    destruct (checkSource _) as [source|]; [|done]. cbn zeta.
    destruct (observed source) as [src|]; [|done]. simpl.
    split; [by apply observe_other|by apply wired_observe].
  - unfold componentWillReceiveProps.
    destruct (checkSource _) as [source|]; [|done].
    destruct (observed source) as [src|]; [|done]. simpl.
    split; [by apply observe_other|by apply wired_observe].
  - split; [|by apply wired_component_dispose].
    by apply registered_component_dispose.
  - split; [|by apply wired_step].
    apply registered_step; [done| |done].
    by apply (leaves_alone_private h (Outside ev)).
Qed.

(** A step that is no lifecycle method of the instance, from a state in
    which its handler is in no observer list: the handler stays out, it is
    not called, and the instance is as before. *)
Lemma quiet_step h hst hev :
  wired (cache (coordinator hst)) (heap (coordinator hst))
    (pending (coordinator hst)) →
  unregistered h (coordinator hst) → leaves_alone h hev →
  let hst' := host_step hst hev in
  wired (cache (coordinator hst')) (heap (coordinator hst'))
    (pending (coordinator hst'))
  ∧ unregistered h (coordinator hst')
  ∧ (∃ cs, notified (coordinator hst') = notified (coordinator hst) ++ cs
           ∧ Forall (λ c, c.1 ≠ h) cs)
  ∧ instance hst' h = instance hst h.
Proof.
  intros Hw Hun Hev. cbn zeta.
  destruct (registered_host_step_other h None hst hev Hw Hev)
    as [Hreg Hw']; [by apply unregistered_registered|].
  split; [done|]. split; [by apply registered_none|].
  assert (∀ s, notified s = notified (coordinator hst) →
            ∃ cs, notified s = notified (coordinator hst) ++ cs
                  ∧ Forall (λ c, c.1 ≠ h) cs) as Hquiet.
  { intros s ->. exists []. by rewrite app_nil_r. }
  destruct hev as [handler props|handler props|handler|ev].
  - simpl in *. unfold componentWillMount.
    destruct (checkSource _) as [source|]; [|by split; [apply Hquiet|]].
    cbn zeta. rewrite instance_put_ne by done. split; [|done].
    apply Hquiet. destruct (observed source); [|done]. simpl.
    apply notified_observe.
  - simpl in *. unfold componentWillReceiveProps.
    destruct (checkSource _) as [source|]; [|by split; [apply Hquiet|]].
    rewrite instance_put_ne by done. split; [|done].
    apply Hquiet. destruct (observed source); [|done]. simpl.
    apply notified_observe.
  - simpl. split; [|done]. apply Hquiet, notified_component_dispose.
  - destruct (notified_step_unregistered h (coordinator hst) ev Hw
                (leaves_alone_private h (Outside ev) Hev) Hun)
      as (cs & Hcs & Hother).
    split; [by eauto|]. unfold instance. simpl.
    rewrite Hcs, drop_app_length. by rewrite deliver_other.
Qed.

Lemma quiet_run h hst later :
  wired (cache (coordinator hst)) (heap (coordinator hst))
    (pending (coordinator hst)) →
  unregistered h (coordinator hst) → Forall (leaves_alone h) later →
  unregistered h (coordinator (host_run hst later))
  ∧ filter (λ c, c.1 = h) (notified (coordinator (host_run hst later))) =
      filter (λ c, c.1 = h) (notified (coordinator hst))
  ∧ instance (host_run hst later) h = instance hst h.
Proof.
  intros Hw Hun Hlater. revert hst Hw Hun.
  induction Hlater as [|hev later Hev _ IH]; intros hst Hw Hun; [done|].
  destruct (quiet_step h hst hev Hw Hun Hev)
    as (Hw' & Hun' & (cs & Hcs & Hother) & Hinst).
  destruct (IH (host_step hst hev) Hw' Hun') as (? & Hn & Hi).
  change (host_run hst (hev :: later))
    with (host_run (host_step hst hev) later).
  split; [done|]. split; [|by etrans].
  rewrite Hn, Hcs, filter_app.
  rewrite <- (app_nil_r (filter _ (notified (coordinator hst)))) at 2.
  f_equal. clear -Hother.
  induction Hother as [|c cs Hc _ IHcs]; [done|].
  by rewrite filter_cons_False.
Qed.

(** X15.  Once an instance is unmounted its handler is in no observer list
    of the index, it is never called again and the state of the instance
    does not change any more, whatever happens afterwards short of a
    lifecycle method of that instance (and provided no other code passes
    its handler to [on]). *)
Theorem unmounted_instance_is_left_alone hevs h later :
  Forall (keeps_private h) hevs → Forall (leaves_alone h) later →
  let hst := host_run host_init (hevs ++ [Unmount h]) in
  let hst' := host_run hst later in
  unregistered h (coordinator hst')
  ∧ filter (λ c, c.1 = h) (notified (coordinator hst')) =
      filter (λ c, c.1 = h) (notified (coordinator hst))
  ∧ instance hst' h = instance hst h.
Proof.
  intros Hevs Hlater. cbn zeta.
  destruct (disciplined_run h host_init hevs (disciplined_init h) Hevs)
    as (Hw & Hreg & Hne).
  assert (host_run host_init (hevs ++ [Unmount h]) =
            host_step (host_run host_init hevs) (Unmount h)) as ->
    by (unfold host_run; by rewrite foldl_app).
  apply quiet_run; [|by apply component_dispose_own|done].
  by apply wired_component_dispose.
Qed.

(** ** A new URI *)

Lemma get_forward st u l e :
  heap st !! l = Some e →
  ∃ e', heap (get st u) !! l = Some e' ∧ handlers e' = handlers e.
Proof.
  intros Hl. unfold get.
  destruct (cache st !! u) as [l0|]; [|by eauto].
  destruct (heap st !! l0) as [e0|] eqn:Hl0; [|by eauto].
  destruct (JS.truthy _); [by eauto|].
  unfold download. rewrite Hl0. destruct (task e0); [by eauto|].
  destruct (getPath _ _ _) as [p n]. simpl.
  destruct (decide (l0 = l)) as [->|Hne].
  - eexists. by rewrite list_lookup_alter_eq, Hl.
  - exists e. by rewrite list_lookup_alter_ne.
Qed.

Lemma on_registers st src h imm :
  wired (cache st) (heap st) (pending st) →
  JS.inherited (uri src) = false →
  ∃ l e, cache (on st src h imm) !! uri src = Some l
         ∧ heap (on st src h imm) !! l = Some e ∧ h ∈ handlers e.
Proof.
  intros (H1 & _) Hown.
  assert (∃ st1 l e,
            state_of (on st src h imm) = get st1 (uri src)
            ∧ cache st1 !! uri src = Some l ∧ heap st1 !! l = Some e
            ∧ h ∈ handlers e) as (st1 & l & e & -> & Hu & Hl & Hin).
  { destruct (cache st !! uri src) as [l|] eqn:Hu.
    - rewrite (on_known _ _ _ _ _ Hu).
      destruct (H1 _ _ Hu) as (e & Hl & _). eexists. exists l. eexists.
      split; [done|]. split; [done|]. simpl.
      rewrite list_lookup_alter_eq, Hl. simpl.
      split; [done|]. simpl. apply elem_of_app. right.
      by apply list_elem_of_singleton.
    - rewrite (on_new _ _ _ _ Hu Hown). eexists.
      exists (List.length (heap st)). eexists. split; [done|]. simpl.
      rewrite lookup_insert_eq, lookup_app_r, Nat.sub_diag by done.
      split; [done|]. split; [done|]. by apply list_elem_of_singleton. }
  destruct (get_forward st1 (uri src) l e Hl) as (e' & Hl' & Hh).
  exists l, e'. destruct (keeps_handlers_get st1 (uri src)) as [-> _].
  by rewrite Hh.
Qed.

Lemma component_dispose_returns this h st :
  (∀ u, this_uri this = Some u → JS.inherited u = false) →
  ∃ st', component_dispose this h st = Returns st'.
Proof.
  intros Hold. unfold component_dispose.
  destruct (JS.truthy (this_uri this)) eqn:Htruthy; [|by eauto].
  destruct (this_uri this) as [u|]; [|done]. simpl.
  destruct (cache st !! u) as [l|] eqn:Hu.
  - rewrite (dispose_known _ _ _ _ Hu). eauto.
  - rewrite (dispose_unknown _ _ _ Hu), (Hold u eq_refl). eauto.
Qed.

(** X16.  When an instance is mounted with, or receives, a source whose URI
    is not the one it holds, and neither of the two URIs is the name of a
    member of [Object.prototype], its handler ends up exactly once in the
    observer list of the new URI and in no other observer list of the
    index, and [this.uri] is the new URI. *)
Theorem new_uri_moves_registration hevs h props src hev :
  Forall (keeps_private h) hevs →
  let hst := host_run host_init hevs in
  observed (source_prop props) = Some src →
  this_uri (instance hst h) ≠ Some (uri src) →
  JS.inherited (uri src) = false →
  (∀ u, this_uri (instance hst h) = Some u → JS.inherited u = false) →
  hev = Mount h props ∨ hev = ReceiveProps h props →
  let hst' := host_step hst hev in
  this_uri (instance hst' h) = Some (uri src)
  ∧ (∃ l e,
       cache (coordinator hst') !! uri src = Some l
       ∧ heap (coordinator hst') !! l = Some e
       ∧ occurrences h (handlers e) = 1)
  ∧ (∀ u l e,
       u ≠ uri src → cache (coordinator hst') !! u = Some l →
       heap (coordinator hst') !! l = Some e → h ∉ handlers e).
Proof.
  intros Hevs hst Hsrc Hnew Hown Hold Hev hst'.
  pose proof (disciplined_run h host_init hevs (disciplined_init h) Hevs)
    as Hd.
  assert (disciplined h hst') as (Hw' & Hreg' & _).
  { apply disciplined_step; [done|]. by destruct Hev as [-> | ->]. }
  destruct Hd as (Hw & _ & _).
  assert (checkSource (source_prop props) = Some (source_prop props)) as Hck
    by (by destruct (source_prop props)).
  assert (∀ this, this_uri this = this_uri (instance hst h) →
            hst' =
              put hst h
                (observe this h (coordinator hst) src
                   (bool_decide (mutable_prop props = Some true)))
            → this_uri (instance hst' h) = Some (uri src)
              ∧ ∃ l e,
                  cache (coordinator hst') !! uri src = Some l
                  ∧ heap (coordinator hst') !! l = Some e
                  ∧ h ∈ handlers e) as Hput.
  { intros this Hthis ->. rewrite instance_put_eq.
    destruct (component_dispose_returns this h (coordinator hst))
      as [stx Hstx]; [by rewrite Hthis|].
    pose proof (wired_component_dispose this h (coordinator hst) Hw) as Hwx.
    cbn zeta in Hwx. rewrite Hstx in Hwx. cbn [state_of] in Hwx.
    unfold observe.
    rewrite bool_decide_eq_false_2 by (rewrite Hthis; congruence).
    rewrite Hstx. split; [done|]. by apply on_registers. }
  assert (this_uri (instance hst' h) = Some (uri src)
          ∧ ∃ l e,
              cache (coordinator hst') !! uri src = Some l
              ∧ heap (coordinator hst') !! l = Some e ∧ h ∈ handlers e)
    as (Huri & l & e & Hu & Hl & Hin).
  { destruct Hev as [-> | ->]; unfold hst'.
    - apply (Hput (setState None (instance hst h))); [done|].
      unfold hst'. cbn [host_step]. unfold componentWillMount.
      rewrite Hck. cbn zeta. by rewrite Hsrc.
    - apply (Hput (instance hst h)); [done|].
      unfold hst'. cbn [host_step]. unfold componentWillReceiveProps.
      by rewrite Hck, Hsrc. }
  split; [done|]. split.
  - exists l, e. split; [done|]. split; [done|].
    destruct (Hreg' _ _ _ Hu Hl) as [Hmost _].
    pose proof (occurrences_present _ _ Hin). lia.
  - intros u0 l0 e0 Hne Hu0 Hl0 Hin0.
    destruct (Hreg' _ _ _ Hu0 Hl0) as [_ Honly].
    specialize (Honly Hin0). congruence.
Qed.

End Lifecycle.

(** ** Rendering *)

Lemma other_props_getProps os this props k :
  other_props (getProps os this props) !! k =
  if decide (k = "mutable" ∨ k = "component")%string then None
  else other_props props !! k.
Proof.
  simpl. rewrite map_lookup_filter.
  destruct (other_props props !! k) as [v|]; simpl; [|by destruct (decide _)].
  destruct (decide (k = "mutable" ∨ k = "component")%string) as [Hk|Hk].
  - rewrite option_guard_False; [done|]. simpl. intros Hnot. apply Hnot.
    destruct Hk as [-> | ->]; apply elem_of_cons; [by left|right].
    apply elem_of_cons. by left.
  - rewrite option_guard_True; [done|]. simpl.
    intros [->|[->|?%elem_of_nil]%elem_of_cons]%elem_of_cons; tauto.
Qed.

(** X17.  An image whose source has a URI renders nothing as long as the
    state of the instance has no path; once it has one, the element gets
    as source the object with only [uri], the file prefix followed by the
    path.  A numeric source is rendered as it is, whatever the state.  In
    both cases the element gets every other prop except [mutable] and
    [component]. *)
Theorem render_waits_for_path os this props :
  (∀ src,
     image_source props = SourceObject src →
     JS.truthy (image_uri src) = true →
     (JS.truthy (state_path this) = false →
      render os this props = None)
     ∧ (∀ p, state_path this = Some p → p ≠ ""%string →
          ∃ r, render os this props = Some r
               ∧ image_source r =
                   SourceObject
                     {| image_uri := Some (FILE_PREFIX os +:+ p);
                        image_method := None; image_headers := None |}
               ∧ ∀ k, other_props r !! k =
                        if decide (k = "mutable" ∨ k = "component")%string
                        then None else other_props props !! k))
  ∧ (∀ n,
       image_source props = SourceNumber n →
       ∃ r, render os this props = Some r
            ∧ image_source r = SourceNumber n
            ∧ ∀ k, other_props r !! k =
                     if decide (k = "mutable" ∨ k = "component")%string
                     then None else other_props props !! k).
Proof.
  split.
  - intros src Hsrc Huri. split.
    + intros Hpath. unfold render, getProps. cbn zeta. simpl.
      by rewrite Hsrc; simpl; rewrite Huri, Hpath.
    + intros p Hp Hne. exists (getProps os this props). split; [|split].
      * unfold render. cbn zeta. simpl. rewrite Hsrc. simpl.
        rewrite Huri, Hp. by destruct p.
      * simpl. rewrite Hsrc. simpl. rewrite Huri, Hp. by destruct p.
      * apply other_props_getProps.
  - intros n Hsrc. exists (getProps os this props). split; [|split].
    + unfold render. cbn zeta. simpl. by rewrite Hsrc.
    + simpl. by rewrite Hsrc.
    + apply other_props_getProps.
Qed.

(** ** Existence checks and deletions *)

Section Files.

Context `{Externals}.

Implicit Types (st : ImageCache) (e : CacheEntry) (u p : string).
Implicit Types (l i n job : nat) (pr : promise) (ev : event).

(** X18.  When the existence check started by the resolution step reports
    the file missing, no handler is called and the stale path is not
    handed out; a download is issued, for the URI of the entry and with a
    destination from [getPath], unless one is running for that entry, in
    which case nothing is issued. *)
Theorem missing_file_is_fetched_again st i l u e :
  pending st !! i = Some (ExistsOfGet l u) → heap st !! l = Some e →
  let st' := step st (Settle i false) in
  notified st' = notified st
  ∧ downloads st' =
      downloads st ++
        match task e with
        | Some _ => []
        | None =>
            [(jobs st, uri (source e),
              (getPath (draws st) (uri (source e)) (immutable e)).1)]
        end.
Proof.
  intros Hi Hl. cbn zeta. rewrite (step_settle _ _ _ _ Hi). simpl.
  set (st1 := with_pending _ st).
  split; [apply (notified_download st1)|].
  destruct (task e) as [job|] eqn:Ht.
  - rewrite (download_busy st1 l e job) by done. by rewrite app_nil_r.
  - by destruct (downloads_download st1 l e Hl Ht) as (-> & _).
Qed.


















(** ** Names that every object inherits *)

Lemma own_keys_perform st c :
  (∀ u, JS.inherited u = true → cache st !! u = None) →
  ∀ u, JS.inherited u = true → cache (perform st c) !! u = None.
Proof.
  intros Hk u Hu.
  assert (∀ s u', cache (get s u') = cache s) as Hget
    by (intros s u'; by destruct (same_shape_get s u')).
  destruct c as [src handler imm|u' handler|u'|u'|]; cbn [perform].
  - destruct (cache st !! uri src) as [l|] eqn:Hsrc.
    { rewrite (on_known _ _ _ _ _ Hsrc). cbn [state_of]. rewrite Hget.
      by apply Hk. }
    destruct (JS.inherited (uri src)) eqn:Hin.
    { rewrite (on_inherited _ _ _ _ Hsrc Hin). by apply Hk. }
    rewrite (on_new _ _ _ _ Hsrc Hin). cbn [state_of]. rewrite Hget. simpl.
    rewrite lookup_insert_ne by congruence. by apply Hk.
  - rewrite cache_dispose. by apply Hk.
  - destruct (bust_state st u') as [->|(l & e & _ & _ & _ & ->)];
      [by apply Hk|]. rewrite Hget. by apply Hk.
  - destruct (cancel_state st u') as [->|[job ->]]; by apply Hk.
  - apply lookup_empty.
Qed.

Lemma own_keys_step st ev :
  (∀ u, JS.inherited u = true → cache st !! u = None) →
  ∀ u, JS.inherited u = true → cache (step st ev) !! u = None.
Proof.
  intros Hk.
  destruct ev as [src handler imm|u' handler|u'|u'| |i ok].
  - apply (own_keys_perform st (CallOn src handler imm) Hk).
  - apply (own_keys_perform st (CallDispose u' handler) Hk).
  - apply (own_keys_perform st (CallBust u') Hk).
  - apply (own_keys_perform st (CallCancel u') Hk).
  - apply (own_keys_perform st CallClear Hk).
  - simpl. destruct (pending st !! i) as [pr|]; [|done].
    set (st1 := with_pending _ st).
    assert (∀ u', ∀ u, JS.inherited u = true →
              cache (notify st1 u') !! u = None) as Hnotify.
    { intros u'.
      apply (preserved_by_notify
               (λ s, ∀ u, JS.inherited u = true → cache s !! u = None)
               (λ _, True)); [done|done| |done].
      intros s c _. apply own_keys_perform. }
    destruct pr as [l u'|l u' p job|l u' p], ok; simpl; try done.
    + apply Hnotify.
    + intros u Hu. destruct (same_shape_download st1 l) as [-> _].
      by apply Hk.
    + specialize (Hnotify u').
      by destruct (notify st1 u') as [st2|st2].
Qed.

Lemma own_keys_run st evs :
  (∀ u, JS.inherited u = true → cache st !! u = None) →
  ∀ u, JS.inherited u = true → cache (run st evs) !! u = None.
Proof.
  revert st. induction evs as [|ev evs IH]; intros st Hk; [done|].
  apply IH. by apply own_keys_step.
Qed.

(** X21.  A URI that is the name of a member of [Object.prototype] can
    never be registered.  In every state reached from the initial one the
    index has no entry under such a name, so [on], [dispose] and [bust]
    for it throw and leave the coordinator as it is, and [cancel] does
    nothing. *)
Theorem inherited_names_are_refused evs u :
  JS.inherited u = true →
  let st := run init evs in
  cache st !! u = None
  ∧ (∀ src handler imm, uri src = u → on st src handler imm = Throws st)
  ∧ (∀ handler, dispose st u handler = Throws st)
  ∧ bust st u = Throws st
  ∧ cancel st u = st.
Proof.
  intros Hin st.
  assert (cache st !! u = None) as Hu.
  { apply own_keys_run; [|done]. intros u' _. apply lookup_empty. }
  split; [done|]. split; [|split; [|split]].
  - intros src handler imm <-. by apply on_inherited.
  - intros handler. by rewrite (dispose_unknown _ _ _ Hu), Hin.
  - by rewrite (bust_unknown _ _ Hu), Hin.
  - unfold cancel. by rewrite (cache_lookup_None _ _ Hu), Hin.
Qed.

End Files.

(** ** The further properties at concrete inputs *)

Lemma dispose_handlers_spaced_witness :
  dispose_handlers 1 [1; 2; 1] = filter (λ h, h ≠ 1) [1; 2; 1]
  ∧ 1 ∉ dispose_handlers 1 [1; 2; 1].
Proof.
  apply (dispose_handlers_spaced 1 [1; 2; 1]).
  intros [|[|[|i]]]; simpl; congruence.
Defined.

Lemma dispose_touches_handlers_only_witness :
  heap demo_busy !! 0 = Some demo_entry
  ∧ ∃ e',
      heap (dispose demo_busy demo_uri 1) !! 0 = Some e'
      ∧ task e' = task demo_entry ∧ path e' = path demo_entry.
Proof.
  assert (heap demo_busy !! 0 = Some demo_entry) as Hl by by_running.
  split; [done|].
  destruct (dispose_touches_handlers_only demo_busy demo_uri 1)
    as (_ & Hentries & _).
  destruct (Hentries 0 demo_entry Hl) as (e' & ? & _ & ? & _ & ? & _).
  by exists e'.
Defined.

Lemma calls_never_notify_witness :
  notified (@step demo demo_busy (Bust demo_uri)) = notified demo_busy.
Proof. by apply (@calls_never_notify demo demo_busy (Bust demo_uri)). Defined.

Lemma orphan_settles_silently_witness :
  (pending demo_cleared !! 0 = Some (ExistsOfDownload 0 demo_uri demo_dest)
   ∧ cache demo_cleared !! demo_uri = None)
  ∧ notified (@step demo demo_cleared (Settle 0 true)) =
      notified demo_cleared
  ∧ @step demo demo_cleared (Settle 0 true) =
      call (FsUnlink demo_dest)
        (update 0 (set_task None) (with_pending [] demo_cleared)).
Proof.
  assert (pending demo_cleared !! 0 =
            Some (ExistsOfDownload 0 demo_uri demo_dest)) as Hi
    by by_running.
  assert (cache demo_cleared !! demo_uri = None) as Hu by by_running.
  destruct (@orphan_settles_silently demo demo_cleared 0 true _ Hi Hu)
    as [Hquiet Hcatch].
  split; [done|]. split; [exact Hquiet|].
  exact (Hcatch 0 demo_uri demo_dest eq_refl eq_refl).
Defined.

Lemma immutable_observers_get_the_path_witness :
  let evs :=
    [On (demo_src demo_uri) 1 (Some true);
     On (demo_src demo_uri) 2 (Some true)] in
  let e :=
    {| source := demo_src demo_uri; handlers := [1; 2];
       path := Some (@immutable_path demo demo_uri); immutable := true;
       task := None |} in
  (pending (demo_run evs) !! 0 = Some (ExistsOfGet 0 demo_uri)
   ∧ cache (demo_run evs) !! demo_uri = Some 0
   ∧ heap (demo_run evs) !! 0 = Some e)
  ∧ notified (@step demo (demo_run evs) (Settle 0 true)) =
      notified (demo_run evs) ++
        [(1, Some (@immutable_path demo demo_uri));
         (2, Some (@immutable_path demo demo_uri))].
Proof.
  intros evs e.
  assert (pending (demo_run evs) !! 0 = Some (ExistsOfGet 0 demo_uri))
    as Hi by by_running.
  assert (cache (demo_run evs) !! demo_uri = Some 0) as Hu by by_running.
  assert (heap (demo_run evs) !! 0 = Some e) as Hl by by_running.
  split; [done|].
  exact (@immutable_observers_get_the_path demo evs 0 _ 0 e true Hi Hu Hl
           eq_refl (λ _ _ _ _, eq_refl)).
Defined.

Lemma on_known_keeps_first_registration_witness :
  (cache demo_busy !! demo_uri = Some 0
   ∧ heap demo_busy !! 0 = Some demo_entry)
  ∧ ∃ e',
      heap (@on demo demo_busy
              {| uri := demo_uri; method := Some "POST"%string;
                 headers := None |} 2 (Some true)) !! 0 = Some e'
      ∧ handlers e' = [1; 2] ∧ source e' = demo_src demo_uri
      ∧ immutable e' = false.
Proof.
  assert (cache demo_busy !! demo_uri = Some 0) as Hu by by_running.
  assert (heap demo_busy !! 0 = Some demo_entry) as Hl by by_running.
  split; [done|].
  destruct (@on_known_keeps_first_registration demo demo_busy
              {| uri := demo_uri; method := Some "POST"%string;
                 headers := None |} 2 (Some true) 0 demo_entry Hu Hl)
    as (_ & (e' & ? & ? & ? & ? & _) & _).
  by exists e'.
Defined.

Lemma clear_then_on_witness :
  heap demo_busy !! 0 = Some demo_entry
  ∧ cache (@on demo (@clear demo demo_busy) (demo_src demo_uri) 2
             (Some true)) !! demo_uri = Some 1
  ∧ heap (@on demo (@clear demo demo_busy) (demo_src demo_uri) 2
            (Some true)) !! 0 = Some demo_entry.
Proof.
  assert (heap demo_busy !! 0 = Some demo_entry) as Hl by by_running.
  assert (JS.inherited (uri (demo_src demo_uri)) = false) as Hown
    by by_running.
  destruct (@clear_then_on demo demo_busy (demo_src demo_uri) 2 (Some true))
    as (_ & Hon).
  rewrite Hown in Hon. destruct Hon as (st' & -> & Hu & _ & Hold).
  split; [done|]. split; [exact Hu|]. by apply Hold.
Defined.

Lemma stored_path_provenance_witness :
  let evs := [On (demo_src demo_uri) 1 None; Settle 0 true] in
  let e :=
    {| source := demo_src demo_uri; handlers := [1]; path := Some demo_dest;
       immutable := false; task := None |} in
  heap (demo_run evs) !! 0 = Some e
  ∧ ∃ job, (job, demo_uri, demo_dest) ∈ downloads (demo_run evs).
Proof.
  intros evs e.
  assert (heap (demo_run evs) !! 0 = Some e) as Hl by by_running.
  split; [done|].
  exact (@stored_path_provenance demo evs 0 e demo_dest Hl eq_refl).
Defined.

Lemma getPath_ext_without_query_witness :
  getPath_ext ("https://x" +:+ "/" +:+ "archive" +:+ "." +:+ "tar.gz") =
    ("." +:+ "tar.gz")%string.
Proof.
  apply (getPath_ext_without_query "https://x" "archive" "tar.gz");
    reflexivity.
Defined.

Lemma getPath_ext_with_query_witness :
  getPath_ext
    ("https://x" +:+ "/" +:+ "a.b" +:+ "." +:+ "png" +:+ "?" +:+ "v=2") =
    ("." +:+ "png")%string.
Proof.
  apply (getPath_ext_with_query "https://x" "a.b" "png" "v=2"); reflexivity.
Defined.

Lemma getPath_ext_default_witness :
  getPath_ext ("https://x" +:+ "/" +:+ "avatar?size=2") = ".jpg"%string.
Proof. apply (getPath_ext_default "https://x" "avatar?size=2"); reflexivity. Defined.

Lemma missing_file_is_fetched_again_witness :
  let evs := [On (demo_src demo_uri) 1 (Some true)] in
  let e :=
    {| source := demo_src demo_uri; handlers := [1];
       path := Some (@immutable_path demo demo_uri); immutable := true;
       task := None |} in
  (pending (demo_run evs) !! 0 = Some (ExistsOfGet 0 demo_uri)
   ∧ heap (demo_run evs) !! 0 = Some e)
  ∧ notified (@step demo (demo_run evs) (Settle 0 false)) =
      notified (demo_run evs)
  ∧ downloads (@step demo (demo_run evs) (Settle 0 false)) =
      downloads (demo_run evs) ++
        [(0, demo_uri, (@getPath demo 0 demo_uri true).1)].
Proof.
  intros evs e.
  assert (pending (demo_run evs) !! 0 = Some (ExistsOfGet 0 demo_uri))
    as Hi by by_running.
  assert (heap (demo_run evs) !! 0 = Some e) as Hl by by_running.
  split; [done|].
  exact (@missing_file_is_fetched_again demo (demo_run evs) 0 0 demo_uri e
           Hi Hl).
Defined.

Lemma instance_registered_once_witness :
  (cache (coordinator (demo_host demo_mounted)) !! demo_uri = Some 0
   ∧ heap (coordinator (demo_host demo_mounted)) !! 0 =
       Some demo_mounted_entry)
  ∧ occurrences 1 (handlers demo_mounted_entry) ≤ 1
  ∧ (1 ∈ handlers demo_mounted_entry →
     this_uri (instance (demo_host demo_mounted) 1) = Some demo_uri).
Proof.
  assert (cache (coordinator (demo_host demo_mounted)) !! demo_uri = Some 0)
    as Hu by by_running.
  assert (heap (coordinator (demo_host demo_mounted)) !! 0 =
            Some demo_mounted_entry) as Hl by by_running.
  split; [done|].
  apply (@instance_registered_once demo demo_mounted 1
           ltac:(repeat constructor) demo_uri 0 demo_mounted_entry Hu Hl).
Defined.

Lemma unmounted_instance_is_left_alone_witness :
  let hst := demo_host (demo_mounted ++ [Unmount 1]) in
  let hst' := @host_run demo hst [Outside (Settle 0 true)] in
  unregistered 1 (coordinator hst')
  ∧ filter (λ c, c.1 = 1) (notified (coordinator hst')) =
      filter (λ c, c.1 = 1) (notified (coordinator hst))
  ∧ instance hst' 1 = instance hst 1.
Proof.
  apply (@unmounted_instance_is_left_alone demo demo_mounted 1
           [Outside (Settle 0 true)]); repeat constructor.
  intros h a st c Hc. by apply elem_of_nil in Hc.
Defined.

Lemma new_uri_moves_registration_witness :
  let hst' :=
    @host_step demo (demo_host demo_mounted)
      (ReceiveProps 1 (demo_props demo_other_uri)) in
  this_uri (instance hst' 1) = Some demo_other_uri
  ∧ (∃ l e,
       cache (coordinator hst') !! demo_other_uri = Some l
       ∧ heap (coordinator hst') !! l = Some e
       ∧ occurrences 1 (handlers e) = 1)
  ∧ (∀ u l e,
       u ≠ demo_other_uri → cache (coordinator hst') !! u = Some l →
       heap (coordinator hst') !! l = Some e → 1 ∉ handlers e).
Proof.
  apply (@new_uri_moves_registration demo demo_mounted 1
           (demo_props demo_other_uri) (demo_src demo_other_uri)
           (ReceiveProps 1 (demo_props demo_other_uri))).
  - repeat constructor.
  - reflexivity.
  - intros Heq. vm_compute in Heq. congruence.
  - by_running.
  - intros u Hu. vm_compute in Hu. injection Hu as <-. by_running.
  - by right.
Defined.

Lemma render_waits_for_path_witness :
  ∃ r,
    render "ios" demo_instance demo_image_props = Some r
    ∧ image_source r =
        SourceObject (demo_image (FILE_PREFIX "ios" +:+ "/c/f.png"))
    ∧ other_props r !! "mutable"%string = None
    ∧ other_props r !! "style"%string = Some 2.
Proof.
  destruct (render_waits_for_path "ios" demo_instance demo_image_props)
    as [Hobject _].
  destruct (Hobject (demo_image demo_uri) eq_refl eq_refl) as [_ Hpath].
  destruct (Hpath "/c/f.png"%string eq_refl ltac:(discriminate))
    as (r & Hr & Hsrc & Hother).
  exists r. split; [done|]. split; [done|].
  rewrite !Hother. split; by_running.
Defined.



Lemma inherited_names_are_refused_witness :
  let st :=
    demo_run [On (demo_src "constructor") 1 None;
              On (demo_src demo_uri) 1 None] in
  JS.inherited "constructor" = true
  ∧ cache st !! "constructor"%string = None
  ∧ @bust demo st "constructor" = Throws st.
Proof.
  intros st.
  assert (JS.inherited "constructor" = true) as Hin by by_running.
  destruct (@inherited_names_are_refused demo
              [On (demo_src "constructor") 1 None;
               On (demo_src demo_uri) 1 None] "constructor" Hin)
    as (Hu & _ & _ & Hbust & _).
  by repeat split.
Defined.

Lemma fan_out_survives_reentrancy_witness :
  (cache demo_three !! demo_uri = Some 0
   ∧ heap demo_three !! 0 = Some demo_three_entry)
  ∧ ∃ st', @notify demo_disposing demo_three demo_uri = Returns st'.
Proof.
  assert (cache demo_three !! demo_uri = Some 0) as Hu by by_running.
  assert (heap demo_three !! 0 = Some demo_three_entry) as Hl by by_running.
  split; [done|].
  apply (@fan_out_survives_reentrancy demo_disposing demo_three demo_uri 0
           demo_three_entry); try done.
  - intros h a s. simpl. by destruct (h =? 1).
  - intros h a s. simpl. destruct (h =? 1); simpl.
    + by intros [=]%list_elem_of_singleton.
    + by intros ?%elem_of_nil.
Defined.

